(** * The Application Companion's steering-command state machine

    A shallow embedding of
    [src/Application_Companion/application_companion.py]
    (class [ApplicationCompanion]) and the properties of its bootstrap,
    its per-command handlers and its command-dispatch loop.

    The Companion talks to four kinds of collaborators that live outside
    this file: the registry, the affinity manager, the communicator
    (queues) and the Application Manager process.  Their answers are
    inputs of the model (an [environment], the list of values the
    Orchestrator delivers, the list of values the Manager answers); what
    the Companion does to them is recorded, in order, in a trace of
    [effect]s.  Python exceptions and blocking receives are results of
    their own, next to a normal return. *)

From Stdlib Require Import QArith.
From stdpp Require Import base strings gmap list.

Open Scope Z_scope.
Open Scope string_scope.
Open Scope list_scope.

(** ** Enumerations

    Modelled from the spec: [common_enums.py] and [state_enums.py] are
    not part of the given sources.  The members below are the ones the
    Companion names; members of different enumerations are never equal
    to one another, as with plain Python [Enum] classes. *)

Inductive Response := OK | ERROR.
Inductive SteeringCommands := INIT | START | END.
Inductive EVENT := FATAL | STATE_UPDATE_FATAL.
Inductive STATES := READY | SYNCHRONIZING | RUNNING | TERMINATED.

(** The four queues created by [__init__], named after the attributes
    that hold their proxies. *)
Inductive queue :=
| application_companion_in_queue
| application_companion_out_queue
| application_manager_in_queue
| application_manager_out_queue.

(** ** Python values that travel through the Companion *)

Inductive value :=
| VNone
| VResponse (r : Response)
| VCommand (c : SteeringCommands)
| VEvent (e : EVENT)
| VQueue (q : queue)
| VStr (s : string)
| VObject (label : string) (has_hash : bool)
    (* any other object, told apart by a label; a list, a dict or a set
       has no hash *)
| VService (id : Z) (name : string)
    (* a registered component service: has [id], [name], [current_state] *)
| VPayload (pid : Z) (min_step_size : Q) (has_hash : bool).
    (* the answer to INIT: process id and local minimum step size; the
       Application Manager decides in what container, with or without a
       hash *)

(** Whether [hash(v)] succeeds: enumeration members, [None], strings and
    proxies have a hash; for other objects it depends on the object. *)
Definition hashable (v : value) : bool :=
  match v with
  | VObject _ has_hash => has_hash
  | VPayload _ _ has_hash => has_hash
  | _ => true
  end.

(** [v == Response.r] *)
Definition eq_Response (v : value) (r : Response) : bool :=
  match v, r with
  | VResponse OK, OK => true
  | VResponse ERROR, ERROR => true
  | _, _ => false
  end.

(** [v == SteeringCommands.c] *)
Definition eq_SteeringCommands (v : value) (c : SteeringCommands) : bool :=
  match v, c with
  | VCommand INIT, INIT => true
  | VCommand START, START => true
  | VCommand END, END => true
  | _, _ => false
  end.

Definition Response_eqb (a b : Response) : bool :=
  match a, b with
  | OK, OK | ERROR, ERROR => true
  | _, _ => false
  end.

(** Attributes the Companion reads from the registry's answer. *)
Inductive attribute := attr_id | attr_name | attr_current_state.

(** Which of these attributes an object has: a service has all three, an
    enumeration member has a [name] only, [None] and the rest have
    none. *)
Definition has_attribute (v : value) (a : attribute) : bool :=
  match v, a with
  | VService _ _, _ => true
  | VResponse _, attr_name | VCommand _, attr_name | VEvent _, attr_name => true
  | _, _ => false
  end.

(** ** Effects, exceptions, results *)

Inductive effect :=
| NewQueue (q : queue)                      (* multiprocessing.Manager().Queue() *)
| Connect (rc : value)                      (* proxy_manager_server_utils.connect *)
| GetRegistryProxy
| SetAffinity (rc : value)
| Register (name : value) (st : STATES) (rc : value)
| FlagSet                                   (* self.__is_registered.set() *)
| FindById (found : value)
| NewCommunicator
| UpdateState (service : value) (st : STATES) (rc : value)
| NewManager                                (* ApplicationManager(...) *)
| StartManager                              (* self.__application_manager.start() *)
| Send (v : value) (q : queue)              (* communicator.send(v, q) *)
| Receive (q : queue) (v : value)           (* v = communicator.receive(q) *)
| RaiseSignal.                              (* signal.raise_signal(SIGTERM) *)

Inductive exn := TypeError | KeyError | AttributeError | ConnectionFailure.

Inductive result (A : Type) :=
| Return (a : A)
| Raise (e : exn)
| Blocked.                                  (* a receive that never returns *)
Arguments Return {A} a.
Arguments Raise {A} e.
Arguments Blocked {A}.

(** ** The Companion object and the world around it *)

Record ApplicationManager := { started : bool }.

Record companion := {
  actions : gmap string value;
  is_registered : bool;
  communicator : option unit;                       (* None, then a CommunicatorQueue *)
  ac_registered_component_service : value;          (* None, then find_by_id's answer *)
  application_manager : option ApplicationManager;  (* None until INIT *)
}.

Record world := {
  self : companion;
  trace : list effect;          (* what has been done so far, oldest first *)
  manager_out : list value;     (* what the Manager will answer, in order *)
}.

(** Answers of the external collaborators.  The registry's answer to
    [update_state] may depend on everything done so far. *)
Record environment := {
  env_connect : value;
  env_set_affinity : value;
  env_register : value;
  env_find_by_id : value;
  env_update_state : list effect -> STATES -> value;
}.

(** ** A state-and-exception monad *)

Definition M (A : Type) : Type := world -> result A * world.

Definition ret {A} (a : A) : M A := fun w => (Return a, w).
Definition raise {A} (e : exn) : M A := fun w => (Raise e, w).
Definition block {A} : M A := fun w => (Blocked, w).

Definition bind {A B} (m : M A) (k : A -> M B) : M B :=
  fun w =>
    match m w with
    | (Return a, w') => k a w'
    | (Raise e, w') => (Raise e, w')
    | (Blocked, w') => (Blocked, w')
    end.

Notation "'let*' x := m 'in' k" := (bind m (fun x => k))
  (at level 10, x name, m at level 100, k at level 200).
Notation "m ';;;' k" := (bind m (fun _ => k))
  (at level 100, k at level 200, right associativity).

Definition get_self : M companion := fun w => (Return (self w), w).
Definition get_trace : M (list effect) := fun w => (Return (trace w), w).

Definition set_self (c : companion) : M unit :=
  fun w => (Return tt, {| self := c; trace := trace w; manager_out := manager_out w |}).

Definition emit (e : effect) : M unit :=
  fun w => (Return tt,
            {| self := self w; trace := trace w ++ [e]; manager_out := manager_out w |}).

(** Attribute assignments on [self]. *)
Definition set_is_registered (c : companion) : companion :=
  {| actions := actions c; is_registered := true;
     communicator := communicator c;
     ac_registered_component_service := ac_registered_component_service c;
     application_manager := application_manager c |}.

Definition set_communicator (c : companion) : companion :=
  {| actions := actions c; is_registered := is_registered c;
     communicator := Some tt;
     ac_registered_component_service := ac_registered_component_service c;
     application_manager := application_manager c |}.

Definition set_service (v : value) (c : companion) : companion :=
  {| actions := actions c; is_registered := is_registered c;
     communicator := communicator c;
     ac_registered_component_service := v;
     application_manager := application_manager c |}.

Definition set_application_manager (m : ApplicationManager) (c : companion) : companion :=
  {| actions := actions c; is_registered := is_registered c;
     communicator := communicator c;
     ac_registered_component_service := ac_registered_component_service c;
     application_manager := Some m |}.

Definition modify_self (f : companion -> companion) : M unit :=
  let* c := get_self in set_self (f c).

(** [obj.attr] inside a log message: the f-string is built before the
    logger is called, so a missing attribute raises whatever the log
    level is. *)
Definition read_attribute (v : value) (a : attribute) : M unit :=
  if has_attribute v a then ret tt else raise AttributeError.

(** ** The communicator

    [CommunicatorQueue] is outside the given sources; [send] puts a
    value on a queue and [receive] blocks until the queue has one.
    Calling either while [self.__communicator] is still [None] raises
    [AttributeError]. *)

Definition communicator_send (v : value) (q : queue) : M unit :=
  let* c := get_self in
  match communicator c with
  | None => raise AttributeError
  | Some _ => emit (Send v q)
  end.

(** Receiving on the Manager's outbound queue takes the Manager's next
    answer, or blocks for ever when there is none. *)
Definition communicator_receive_manager : M value :=
  let* c := get_self in
  match communicator c with
  | None => raise AttributeError
  | Some _ =>
      fun w =>
        match manager_out w with
        | [] => (Blocked, w)
        | v :: rest =>
            (Return v,
             {| self := self w;
                trace := trace w ++ [Receive application_manager_out_queue v];
                manager_out := rest |})
        end
  end.

(** ** The methods of [ApplicationCompanion] *)

(** A fresh object, before [__init__] has assigned anything that
    matters; [replies] is what the Manager is going to answer. *)
Definition new_world (acts : gmap string value) (replies : list value) : world :=
  {| self := {| actions := acts; is_registered := false; communicator := None;
                ac_registered_component_service := VNone;
                application_manager := None |};
     trace := []; manager_out := replies |}.

Section Companion.

Variable env : environment.

(** [__init__]: the four queues, the connection to the proxy manager
    server, the registry proxy, the unset registration flag, and
    [None] for communicator, service and Application Manager. *)
Definition __init__ : M unit :=
  emit (NewQueue application_companion_in_queue) ;;;
  emit (NewQueue application_companion_out_queue) ;;;
  emit (NewQueue application_manager_in_queue) ;;;
  emit (NewQueue application_manager_out_queue) ;;;
  emit (Connect (env_connect env)) ;;;
  (if eq_Response (env_connect env) ERROR
   then raise ConnectionFailure     (* terminate_with_error raises *)
   else ret tt) ;;;
  emit GetRegistryProxy.

(** [__set_up_runtime] *)
Definition __set_up_runtime : M Response :=
  (* 1. set affinity; a failure is only logged *)
  emit (SetAffinity (env_set_affinity env)) ;;;
  (* 2. register with registry *)
  let* c := get_self in
  match actions c !! "action" with
  | None => raise KeyError
  | Some name =>
      emit (Register name READY (env_register env)) ;;;
      if eq_Response (env_register env) ERROR
      then ret ERROR
      else
        (* 3. indicate a successful registration *)
        modify_self set_is_registered ;;;
        emit FlagSet ;;;
        (* 4. get proxy to update the states later in registry *)
        emit (FindById (env_find_by_id env)) ;;;
        modify_self (set_service (env_find_by_id env)) ;;;
        read_attribute (env_find_by_id env) attr_id ;;;
        read_attribute (env_find_by_id env) attr_name ;;;
        (* 5. initialize the Communicator object *)
        emit NewCommunicator ;;;
        modify_self set_communicator ;;;
        ret OK
  end.

(** [__send_response_to_orchestrator(self, response)]: called with the
    positional arguments [args]; any number of them other than one is a
    [TypeError] at the call. *)
Definition __send_response_to_orchestrator (args : list value) : M unit :=
  match args with
  | [response] => communicator_send response application_companion_out_queue
  | _ => raise TypeError
  end.

(** [__respond_with_state_update_error]: the call passes the event and
    the outbound queue. *)
Definition __respond_with_state_update_error : M Response :=
  __send_response_to_orchestrator
    [VEvent STATE_UPDATE_FATAL; VQueue application_companion_out_queue] ;;;
  ret ERROR.

(** [__update_local_state(new_state)] *)
Definition __update_local_state (new_state : STATES) : M value :=
  let* c := get_self in
  read_attribute (ac_registered_component_service c) attr_current_state ;;;
  let* history := get_trace in
  let rc := env_update_state env history new_state in
  emit (UpdateState (ac_registered_component_service c) new_state rc) ;;;
  read_attribute (ac_registered_component_service c) attr_current_state ;;;
  ret rc.

Definition __receive_response_from_application_manager : M value :=
  communicator_receive_manager.

(** [__command_execution_response(response)] *)
Definition __command_execution_response (response : value) : M Response :=
  if eq_Response response ERROR then ret ERROR else ret OK.

Definition __send_command_to_application_manager (command : SteeringCommands) : M unit :=
  communicator_send (VCommand command) application_manager_in_queue.

(** [__execute_init_command] *)
Definition __execute_init_command : M Response :=
  (* 1. update local state *)
  let* rc := __update_local_state SYNCHRONIZING in
  if eq_Response rc ERROR then __respond_with_state_update_error
  else
    (* 2. initialize Application Manager *)
    emit NewManager ;;;
    modify_self (set_application_manager {| started := false |}) ;;;
    (* 3. start the application Manager *)
    emit StartManager ;;;
    modify_self (set_application_manager {| started := true |}) ;;;
    __send_command_to_application_manager INIT ;;;
    (* 4. wait for the response *)
    let* response := __receive_response_from_application_manager in
    (* 5. send response to Orchestrator *)
    __send_response_to_orchestrator [response] ;;;
    __command_execution_response response.

(** [__execute_start_command] *)
Definition __execute_start_command : M Response :=
  let* rc := __update_local_state RUNNING in
  if eq_Response rc ERROR then __respond_with_state_update_error
  else
    __send_command_to_application_manager START ;;;
    let* response := __receive_response_from_application_manager in
    __send_response_to_orchestrator [response] ;;;
    __command_execution_response response.

(** [__execute_end_command] *)
Definition __execute_end_command : M Response :=
  let* rc := __update_local_state TERMINATED in
  if eq_Response rc ERROR then __respond_with_state_update_error
  else
    __send_command_to_application_manager END ;;;
    let* response := communicator_receive_manager in
    __send_response_to_orchestrator [response] ;;;
    __command_execution_response response.

(** [__terminate_with_error] *)
Definition __terminate_with_error : M Response :=
  emit RaiseSignal ;;; ret ERROR.

(** [__handle_fatal_event] *)
Definition __handle_fatal_event : M Response := ret ERROR.

(** The dictionary [command_execution_choices], as the function from
    its keys to its values; the subscript in the loop hashes the key
    first ([TypeError] when it has no hash) and raises [KeyError] when
    the dictionary has no such key. *)
Definition command_execution_choices (key : value) : option (M Response) :=
  match key with
  | VCommand INIT => Some __execute_init_command
  | VCommand START => Some __execute_start_command
  | VCommand END => Some __execute_end_command
  | VEvent FATAL => Some __handle_fatal_event
  | _ => None
  end.

(** [__fetch_and_execute_steering_commands]: one iteration takes one
    value from the Orchestrator, so the loop is a recursion on what the
    Orchestrator delivers. *)
Fixpoint __fetch_and_execute_steering_commands (inbox : list value) : M Response :=
  let* c := get_self in
  match communicator c with
  | None => raise AttributeError
  | Some _ =>
      match inbox with
      | [] => block
      | current_steering_command :: rest =>
          (* 1. fetch the Steering Command *)
          emit (Receive application_companion_in_queue current_steering_command) ;;;
          (* 2. execute the current steering command *)
          if hashable current_steering_command
          then
            match command_execution_choices current_steering_command with
            | None => raise KeyError
            | Some execute =>
                let* rc := execute in
                if Response_eqb rc ERROR
                then __terminate_with_error
                else if eq_SteeringCommands current_steering_command END
                     then ret OK          (* 3 (a) *)
                     else __fetch_and_execute_steering_commands rest  (* 3 (b) *)
            end
          else raise TypeError
      end
  end.

(** [run] *)
Definition run (inbox : list value) : M Response :=
  let* rc := __set_up_runtime in
  if Response_eqb rc ERROR then ret ERROR
  else __fetch_and_execute_steering_commands inbox.

(** Construction followed by [run]: one Companion lifetime. *)
Definition lifetime (inbox : list value) : M Response :=
  __init__ ;;; run inbox.

End Companion.

(** ** Reading a trace *)

(** The states the registry accepted, in order: the initial state of a
    registration and the new state of every state update that was not
    answered with [ERROR]. *)
Definition state_written (e : effect) : option STATES :=
  match e with
  | Register _ st rc => if eq_Response rc ERROR then None else Some st
  | UpdateState _ st rc => if eq_Response rc ERROR then None else Some st
  | _ => None
  end.

Definition states_written (t : list effect) : list STATES :=
  omap state_written t.

(** What was sent on a queue, in order. *)
Definition sent_on (q : queue) (e : effect) : option value :=
  match e with
  | Send v q' =>
      match q, q' with
      | application_companion_in_queue, application_companion_in_queue
      | application_companion_out_queue, application_companion_out_queue
      | application_manager_in_queue, application_manager_in_queue
      | application_manager_out_queue, application_manager_out_queue => Some v
      | _, _ => None
      end
  | _ => None
  end.

Definition sent (q : queue) (t : list effect) : list value := omap (sent_on q) t.

(** The values taken from the Orchestrator's inbound queue, in order. *)
Definition received_command (e : effect) : option value :=
  match e with
  | Receive application_companion_in_queue v => Some v
  | _ => None
  end.

Definition received_commands (t : list effect) : list value :=
  omap received_command t.

Definition is_FlagSet (e : effect) : bool :=
  match e with FlagSet => true | _ => false end.
Definition is_FindById (e : effect) : bool :=
  match e with FindById _ => true | _ => false end.
Definition is_RaiseSignal (e : effect) : bool :=
  match e with RaiseSignal => true | _ => false end.
Definition is_NewManager (e : effect) : bool :=
  match e with NewManager => true | _ => false end.
Definition is_StartManager (e : effect) : bool :=
  match e with StartManager => true | _ => false end.
Definition is_NewQueue (q : queue) (e : effect) : bool :=
  match e with
  | NewQueue q' =>
      match q, q' with
      | application_companion_in_queue, application_companion_in_queue
      | application_companion_out_queue, application_companion_out_queue
      | application_manager_in_queue, application_manager_in_queue
      | application_manager_out_queue, application_manager_out_queue => true
      | _, _ => false
      end
  | _ => false
  end.
Definition is_registry_update (e : effect) : bool :=
  match e with UpdateState _ _ _ => true | _ => false end.
(** A registration the registry did not answer with [ERROR]. *)
Definition is_successful_Register (e : effect) : bool :=
  match e with Register _ _ rc => negb (eq_Response rc ERROR) | _ => false end.
(** Anything on one of the two Manager queues. *)
Definition is_manager_traffic (e : effect) : bool :=
  match e with
  | Send _ application_manager_in_queue
  | Send _ application_manager_out_queue
  | Receive application_manager_in_queue _
  | Receive application_manager_out_queue _ => true
  | _ => false
  end.
(** Taking a value from the Orchestrator's inbound queue. *)
Definition is_fetch (e : effect) : bool :=
  match e with Receive application_companion_in_queue _ => true | _ => false end.
Definition is_fetch_of (c : SteeringCommands) (e : effect) : bool :=
  match e with
  | Receive application_companion_in_queue v => eq_SteeringCommands v c
  | _ => false
  end.
(** Sending command [c] to the Manager. *)
Definition is_command_to_manager (c : SteeringCommands) (e : effect) : bool :=
  match e with
  | Send v application_manager_in_queue => eq_SteeringCommands v c
  | _ => false
  end.

(** [precedes_from seen p q t]: every [q]-effect of [t] comes after a
    [p]-effect of [t] (or [seen] says one came before [t]). *)
Fixpoint precedes_from (seen : bool) (p q : effect -> bool) (t : list effect) : bool :=
  match t with
  | [] => true
  | e :: t' => (negb (q e) || seen) && precedes_from (seen || p e) p q t'
  end.

Definition precedes (p q : effect -> bool) (t : list effect) : bool :=
  precedes_from false p q t.

(** The world after more effects. *)
Definition after (l : list effect) (w : world) : world :=
  {| self := self w; trace := trace w ++ l; manager_out := manager_out w |}.

(** The state a steering command moves the Companion to. *)
Definition commanded_state (c : SteeringCommands) : STATES :=
  match c with
  | INIT => SYNCHRONIZING
  | START => RUNNING
  | END => TERMINATED
  end.

(** ** Concrete runs *)

Module Scenario.

Definition env_fine : environment :=
  {| env_connect := VObject "proxy manager client" true;
     env_set_affinity := VResponse OK;
     env_register := VResponse OK;
     env_find_by_id := VService 4242 "simulator";
     env_update_state := fun _ _ => VResponse OK |}.

(** The registry refuses every state update. *)
Definition env_update_fails : environment :=
  {| env_connect := VObject "proxy manager client" true;
     env_set_affinity := VResponse OK;
     env_register := VResponse OK;
     env_find_by_id := VService 4242 "simulator";
     env_update_state := fun _ _ => VResponse ERROR |}.

(** Registration fails. *)
Definition env_register_fails : environment :=
  {| env_connect := VObject "proxy manager client" true;
     env_set_affinity := VResponse OK;
     env_register := VResponse ERROR;
     env_find_by_id := VNone;
     env_update_state := fun _ _ => VResponse OK |}.

(** Registration succeeds, the lookup that follows finds nothing. *)
Definition env_lookup_empty : environment :=
  {| env_connect := VObject "proxy manager client" true;
     env_set_affinity := VResponse OK;
     env_register := VResponse OK;
     env_find_by_id := VNone;
     env_update_state := fun _ _ => VResponse OK |}.

Definition acts : gmap string value := {[ "action" := VStr "simulator" ]}.

Definition payload : value := VPayload 123 (1 # 10) false.

(** A Companion that has been constructed and has bootstrapped. *)
Definition ready (e : environment) (replies : list value) : world :=
  snd (__set_up_runtime e (snd (__init__ e (new_world acts replies)))).

End Scenario.

Import Scenario.

(** ** Definitions used in the statements *)

(** What a handler does between the state update and its return when
    nothing fails on the way: for INIT the Manager is constructed and
    started first. *)
Definition manager_setup (cmd : SteeringCommands) : list effect :=
  match cmd with
  | INIT => [NewManager; StartManager]
  | _ => []
  end.

Definition exchange (cmd : SteeringCommands) (response : value) : list effect :=
  manager_setup cmd ++
  [Send (VCommand cmd) application_manager_in_queue;
   Receive application_manager_out_queue response;
   Send response application_companion_out_queue].

Definition execute_command (env : environment) (cmd : SteeringCommands) : M Response :=
  match cmd with
  | INIT => __execute_init_command env
  | START => __execute_start_command env
  | END => __execute_end_command env
  end.

(** The Companion object after a handler that went through: INIT leaves
    a started Application Manager behind. *)
Definition with_manager (cmd : SteeringCommands) (c : companion) : companion :=
  match cmd with
  | INIT => set_application_manager {| started := true |} c
  | _ => c
  end.

Definition init_effects (env : environment) : list effect :=
  [NewQueue application_companion_in_queue;
   NewQueue application_companion_out_queue;
   NewQueue application_manager_in_queue;
   NewQueue application_manager_out_queue;
   Connect (env_connect env);
   GetRegistryProxy].

Definition bootstrap_effects (env : environment) (name : value) : list effect :=
  [SetAffinity (env_set_affinity env);
   Register name READY (env_register env);
   FlagSet;
   FindById (env_find_by_id env);
   NewCommunicator].

(** The world after a command went through, fetch included. *)
Definition command_done (env : environment) (cmd : SteeringCommands) (r : value)
    (replies : list value) (w : world) : world :=
  let history := trace w ++ [Receive application_companion_in_queue (VCommand cmd)] in
  {| self := with_manager cmd (self w);
     trace := history ++
              UpdateState (ac_registered_component_service (self w))
                (commanded_state cmd)
                (env_update_state env history (commanded_state cmd))
              :: exchange cmd r;
     manager_out := replies |}.

(** Everything a handler does when nothing stops it: the state update,
    then the exchange with the Manager.  [FATAL] and values the dispatch
    table does not know do nothing. *)
Definition handler_script (v svc rc r : value) : list effect :=
  match v with
  | VCommand cmd => UpdateState svc (commanded_state cmd) rc :: exchange cmd r
  | _ => []
  end.

(** The shapes of what the loop adds: iterations that fetch a value and
    go some way through its handler's script; the last one may end with
    the termination signal. *)
Inductive loop_script : list effect -> Prop :=
| script_idle : loop_script []
| script_signal v svc rc r l :
    l `prefix_of` handler_script v svc rc r ->
    loop_script (Receive application_companion_in_queue v :: l ++ [RaiseSignal])
| script_next v svc rc r l rest :
    l `prefix_of` handler_script v svc rc r ->
    loop_script rest ->
    loop_script (Receive application_companion_in_queue v :: l ++ rest).

(** The kinds of effect the loop has: fetches, state updates, the
    Manager's construction and start, traffic on the Manager queues and
    on the outbound queue, the termination signal. *)
Definition loop_effect (e : effect) : bool :=
  match e with
  | Receive application_companion_in_queue _
  | Receive application_manager_out_queue _
  | Send _ application_manager_in_queue
  | Send _ application_companion_out_queue
  | UpdateState _ _ _ | NewManager | StartManager | RaiseSignal => true
  | _ => false
  end.

(** What [__init__] adds to the trace. *)
Definition init_added (env : environment) : list effect :=
  [NewQueue application_companion_in_queue;
   NewQueue application_companion_out_queue;
   NewQueue application_manager_in_queue;
   NewQueue application_manager_out_queue;
   Connect (env_connect env)] ++
  (if eq_Response (env_connect env) ERROR then [] else [GetRegistryProxy]).

(** Whether the registry's answer to [find_by_id] has the attributes
    the debug line of [__set_up_runtime] reads. *)
Definition lookup_usable (env : environment) : bool :=
  has_attribute (env_find_by_id env) attr_id
  && has_attribute (env_find_by_id env) attr_name.

(** What [__set_up_runtime] adds to the trace. *)
Definition bootstrap_added (env : environment) (acts : gmap string value) : list effect :=
  SetAffinity (env_set_affinity env) ::
  match acts !! "action" with
  | None => []
  | Some name =>
      Register name READY (env_register env) ::
      (if eq_Response (env_register env) ERROR then []
       else [FlagSet; FindById (env_find_by_id env)] ++
            (if lookup_usable env then [NewCommunicator] else []))
  end.

(** How [__set_up_runtime] ends. *)
Definition bootstrap_result (env : environment) (acts : gmap string value) : result Response :=
  match acts !! "action" with
  | None => Raise KeyError
  | Some _ =>
      if eq_Response (env_register env) ERROR then Return ERROR
      else if lookup_usable env then Return OK else Raise AttributeError
  end.

(** Everything done before the loop is entered. *)
Definition before_loop (env : environment) (acts : gmap string value) : list effect :=
  init_added env ++
  (if eq_Response (env_connect env) ERROR then [] else bootstrap_added env acts).

Definition enters_loop (env : environment) (acts : gmap string value) : bool :=
  negb (eq_Response (env_connect env) ERROR)
  && match bootstrap_result env acts with Return OK => true | _ => false end.

(** The Manager or one of its two queues being created. *)
Definition is_manager_side_creation (e : effect) : bool :=
  is_NewManager e
  || is_NewQueue application_manager_in_queue e
  || is_NewQueue application_manager_out_queue e.

(** How a command handler ends, case by case: the registered service
    has no [current_state]; the registry refuses the update; there is no
    communicator; the Manager never answers; the Manager answers. *)
Definition handler_outcome (env : environment) (cmd : SteeringCommands) (w : world)
    : result Response * world :=
  let svc := ac_registered_component_service (self w) in
  let rc := env_update_state env (trace w) (commanded_state cmd) in
  let update := UpdateState svc (commanded_state cmd) rc in
  if negb (has_attribute svc attr_current_state) then (Raise AttributeError, w)
  else if eq_Response rc ERROR then (Raise TypeError, after [update] w)
  else
    match communicator (self w), manager_out w with
    | None, _ =>
        (Raise AttributeError,
         {| self := with_manager cmd (self w);
            trace := trace w ++ update :: manager_setup cmd;
            manager_out := manager_out w |})
    | Some _, [] =>
        (Blocked,
         {| self := with_manager cmd (self w);
            trace := trace w ++ update :: manager_setup cmd ++
                     [Send (VCommand cmd) application_manager_in_queue];
            manager_out := [] |})
    | Some _, r :: replies =>
        (Return (if eq_Response r ERROR then ERROR else OK),
         {| self := with_manager cmd (self w);
            trace := trace w ++ update :: exchange cmd r;
            manager_out := replies |})
    end.

(** The runs of the dispatch loop, one rule per way an iteration can
    end. *)
Inductive loop_run (env : environment)
    : list value -> world -> result Response -> world -> Prop :=
| run_no_communicator inbox w :
    communicator (self w) = None ->
    loop_run env inbox w (Raise AttributeError) w
| run_starved w :
    communicator (self w) = Some tt ->
    loop_run env [] w Blocked w
| run_unknown v rest w :
    communicator (self w) = Some tt ->
    command_execution_choices env v = None ->
    loop_run env (v :: rest) w (Raise (if hashable v then KeyError else TypeError))
      (after [Receive application_companion_in_queue v] w)
| run_error v rest w execute w1 :
    communicator (self w) = Some tt ->
    command_execution_choices env v = Some execute ->
    execute (after [Receive application_companion_in_queue v] w) = (Return ERROR, w1) ->
    loop_run env (v :: rest) w (Return ERROR) (after [RaiseSignal] w1)
| run_end rest w execute w1 :
    communicator (self w) = Some tt ->
    command_execution_choices env (VCommand END) = Some execute ->
    execute (after [Receive application_companion_in_queue (VCommand END)] w) =
      (Return OK, w1) ->
    loop_run env (VCommand END :: rest) w (Return OK) w1
| run_next v rest w execute w1 r w' :
    communicator (self w) = Some tt ->
    command_execution_choices env v = Some execute ->
    execute (after [Receive application_companion_in_queue v] w) = (Return OK, w1) ->
    v <> VCommand END ->
    loop_run env rest w1 r w' ->
    loop_run env (v :: rest) w r w'
| run_raise v rest w execute e w1 :
    communicator (self w) = Some tt ->
    command_execution_choices env v = Some execute ->
    execute (after [Receive application_companion_in_queue v] w) = (Raise e, w1) ->
    loop_run env (v :: rest) w (Raise e) w1
| run_blocked v rest w execute w1 :
    communicator (self w) = Some tt ->
    command_execution_choices env v = Some execute ->
    execute (after [Receive application_companion_in_queue v] w) = (Blocked, w1) ->
    loop_run env (v :: rest) w Blocked w1.

(** The Manager's answers the Companion has taken, in order. *)
Definition manager_answer (e : effect) : option value :=
  match e with
  | Receive application_manager_out_queue v => Some v
  | _ => None
  end.

Definition manager_answers (t : list effect) : list value := omap manager_answer t.

(** The same collaborators, with another answer of the affinity
    manager. *)
Definition with_affinity (rc : value) (env : environment) : environment :=
  {| env_connect := env_connect env;
     env_set_affinity := rc;
     env_register := env_register env;
     env_find_by_id := env_find_by_id env;
     env_update_state := env_update_state env |}.

(** Everything of the Companion object but its Application Manager. *)
Definition registration_of (c : companion)
    : gmap string value * bool * option unit * value :=
  (actions c, is_registered c, communicator c, ac_registered_component_service c).

(** The Companion object with another Application Manager attribute. *)
Definition with_application_manager (m : option ApplicationManager) (w : world) : world :=
  {| self := {| actions := actions (self w);
                is_registered := is_registered (self w);
                communicator := communicator (self w);
                ac_registered_component_service :=
                  ac_registered_component_service (self w);
                application_manager := m |};
     trace := trace w;
     manager_out := manager_out w |}.

(** [directly_after_from prev p q t]: every [q]-effect of [t] has a
    [p]-effect immediately before it ([prev] says whether the effect
    just before [t] is one). *)
Fixpoint directly_after_from (prev : bool) (p q : effect -> bool) (t : list effect) : bool :=
  match t with
  | [] => true
  | e :: t' => (negb (q e) || prev) && directly_after_from (p e) p q t'
  end.

Definition directly_after (p q : effect -> bool) (t : list effect) : bool :=
  directly_after_from false p q t.

(** Whether the last effect is a [p]-effect ([prev] for no effect). *)
Fixpoint ends_with_from (prev : bool) (p : effect -> bool) (t : list effect) : bool :=
  match t with
  | [] => prev
  | e :: t' => ends_with_from (p e) p t'
  end.

(** A state update to [SYNCHRONIZING], whatever the registry answers. *)
Definition is_update_to_SYNCHRONIZING (e : effect) : bool :=
  match e with
  | UpdateState _ SYNCHRONIZING _ => true
  | _ => false
  end.

(** Whether the Companion object holds an Application Manager. *)
Definition has_manager (c : companion) : bool :=
  match application_manager c with
  | Some _ => true
  | None => false
  end.

(** ** Proof tools *)

Arguments has_attribute : simpl nomatch.
Arguments eq_Response : simpl nomatch.
Arguments eq_SteeringCommands : simpl nomatch.

Ltac unfold_monad :=
  unfold communicator_send, communicator_receive_manager, read_attribute,
    modify_self, set_self, get_self, get_trace, emit, bind, ret, raise, block in *.

Ltac unfold_methods :=
  unfold lifetime, run, __init__, __set_up_runtime, __handle_fatal_event,
    __terminate_with_error, __execute_init_command, __execute_start_command,
    __execute_end_command, __respond_with_state_update_error,
    __send_response_to_orchestrator, __update_local_state,
    __receive_response_from_application_manager,
    __command_execution_response, __send_command_to_application_manager in *.

(** Unfold one iteration of the loop. *)
Lemma loop_unfold env current rest :
  __fetch_and_execute_steering_commands env (current :: rest) =
  (let* c := get_self in
   match communicator c with
   | None => raise AttributeError
   | Some _ =>
       emit (Receive application_companion_in_queue current) ;;;
       if hashable current
       then
         match command_execution_choices env current with
         | None => raise KeyError
         | Some execute =>
             let* rc := execute in
             if Response_eqb rc ERROR
             then __terminate_with_error
             else if eq_SteeringCommands current END
                  then ret OK
                  else __fetch_and_execute_steering_commands env rest
         end
       else raise TypeError
   end).
Proof. reflexivity. Qed.

(** The keys of the dispatch table have a hash. *)
Lemma dispatch_hashable env v execute :
  command_execution_choices env v = Some execute -> hashable v = true.
Proof. by destruct v as [ | | [] | [] | | | | | ]. Qed.

(** One iteration of the loop, for a value the dispatch table does not
    know. *)
Lemma loop_unknown env v rest w :
  communicator (self w) = Some tt ->
  command_execution_choices env v = None ->
  __fetch_and_execute_steering_commands env (v :: rest) w =
    (Raise (if hashable v then KeyError else TypeError),
     after [Receive application_companion_in_queue v] w).
Proof.
  intros Hc Hd. rewrite loop_unfold. unfold bind, get_self, raise, emit.
  rewrite Hc, Hd. by destruct (hashable v).
Qed.

(** ** The FATAL event *)

(** C5: whenever FATAL is taken from the Orchestrator's inbound queue,
    whatever the state of the Companion and whatever is still to come,
    the loop ends at that iteration with ERROR; besides the fetch and
    the termination signal nothing is done: no registry update, nothing
    on either Manager queue, and the Companion object is unchanged. *)
Theorem fatal_event_ends_loop (env : environment) (rest : list value) (w : world) :
  communicator (self w) = Some tt ->
  __fetch_and_execute_steering_commands env (VEvent FATAL :: rest) w =
    (Return ERROR,
     after [Receive application_companion_in_queue (VEvent FATAL); RaiseSignal] w)
  /\ let w' := snd (__fetch_and_execute_steering_commands env (VEvent FATAL :: rest) w) in
     filter is_registry_update (trace w') = filter is_registry_update (trace w)
     /\ filter is_manager_traffic (trace w') = filter is_manager_traffic (trace w)
     /\ manager_out w' = manager_out w
     /\ self w' = self w.
Proof.
  intros Hc.
  assert (E : __fetch_and_execute_steering_commands env (VEvent FATAL :: rest) w =
    (Return ERROR,
     after [Receive application_companion_in_queue (VEvent FATAL); RaiseSignal] w)).
  { rewrite loop_unfold. unfold_methods. unfold_monad. cbn. rewrite Hc. cbn.
    unfold after. by rewrite <- app_assoc. }
  split; [exact E|].
  rewrite E. cbn. rewrite !filter_app. cbn.
  by rewrite !app_nil_r.
Qed.

Lemma fatal_event_ends_loop_witness :
  communicator (self (ready env_fine [])) = Some tt /\
  __fetch_and_execute_steering_commands env_fine [VEvent FATAL; VCommand INIT]
    (ready env_fine []) =
    (Return ERROR,
     after [Receive application_companion_in_queue (VEvent FATAL); RaiseSignal]
       (ready env_fine [])).
Proof.
  split; [reflexivity|].
  apply (fatal_event_ends_loop env_fine [VCommand INIT] (ready env_fine [])).
  reflexivity.
Defined.

(** ** Values the dispatch table does not know *)

(** C9, as stated, fails for a value that has no hash (a list, a dict):
    the subscript raises [TypeError] before it looks for the key, not
    [KeyError]. *)
Lemma unhashable_value_raises_TypeError :
  VObject "[]" false <> VCommand INIT
  /\ VObject "[]" false <> VCommand START
  /\ VObject "[]" false <> VCommand END
  /\ VObject "[]" false <> VEvent FATAL
  /\ fst (__fetch_and_execute_steering_commands env_fine
            [VObject "[]" false; VCommand END] (ready env_fine [])) = Raise TypeError
  /\ fst (__fetch_and_execute_steering_commands env_fine
            [VObject "[]" false; VCommand END] (ready env_fine [])) <> Raise KeyError.
Proof. repeat split; discriminate. Qed.

(** C9, amended: the dispatch step is not total.  For a value taken from
    the inbound queue that is none of INIT, START, END and FATAL, the
    subscript of [command_execution_choices] raises an exception nothing
    handles, [KeyError] when the value has a hash and [TypeError] when
    it has none: the loop returns no Response, does not go on to the
    values that follow, and does not reach its termination branches (no
    signal is raised). *)
Theorem unknown_value_raises
    (env : environment) (v : value) (rest : list value) (w : world) :
  communicator (self w) = Some tt ->
  v <> VCommand INIT -> v <> VCommand START -> v <> VCommand END ->
  v <> VEvent FATAL ->
  command_execution_choices env v = None
  /\ (hashable v = true ->
      __fetch_and_execute_steering_commands env (v :: rest) w =
        (Raise KeyError, after [Receive application_companion_in_queue v] w))
  /\ (hashable v = false ->
      __fetch_and_execute_steering_commands env (v :: rest) w =
        (Raise TypeError, after [Receive application_companion_in_queue v] w))
  /\ (exists e,
        fst (__fetch_and_execute_steering_commands env (v :: rest) w) = Raise e)
  /\ filter is_RaiseSignal
       (trace (snd (__fetch_and_execute_steering_commands env (v :: rest) w))) =
     filter is_RaiseSignal (trace w)
  /\ received_commands
       (trace (snd (__fetch_and_execute_steering_commands env (v :: rest) w))) =
     received_commands (trace w) ++ [v].
Proof.
  intros Hc Hi Hs He Hf.
  assert (Hnone : command_execution_choices env v = None).
  { destruct v as [ | ? | [] | [] | ? | ? | ? | ? ? | ? ? ]; try reflexivity; congruence. }
  split; [exact Hnone|].
  rewrite (loop_unknown env v rest w Hc Hnone).
  split; [by intros ->|]. split; [by intros ->|]. split; [by eexists|].
  cbn [snd after trace]. unfold received_commands.
  rewrite filter_app, omap_app. cbn. by rewrite app_nil_r.
Qed.

Lemma unknown_value_raises_witness :
  __fetch_and_execute_steering_commands env_fine
    [VEvent STATE_UPDATE_FATAL; VCommand END] (ready env_fine []) =
    (Raise KeyError,
     after [Receive application_companion_in_queue (VEvent STATE_UPDATE_FATAL)]
       (ready env_fine [])).
Proof.
  pose proof (unknown_value_raises env_fine (VEvent STATE_UPDATE_FATAL)
                [VCommand END] (ready env_fine []) eq_refl) as H.
  destruct H as (_ & H & _); [discriminate .. |].
  by apply H.
Defined.

(** ** Registration failure at bootstrap *)

(** C8: when the registry answers the registration with ERROR,
    [__set_up_runtime] returns ERROR and so does [run]; the dispatch
    loop is not entered (nothing is taken from the inbound queue) and,
    unlike on the loop's failure path, no termination signal is
    raised: after the affinity call and the failed registration nothing
    else happens. *)
Theorem registration_failure_aborts_quietly
    (env : environment) (inbox : list value) (w : world) (name : value) :
  actions (self w) !! "action" = Some name ->
  env_register env = VResponse ERROR ->
  __set_up_runtime env w =
    (Return ERROR,
     after [SetAffinity (env_set_affinity env); Register name READY (VResponse ERROR)] w)
  /\ run env inbox w = __set_up_runtime env w
  /\ let w' := snd (run env inbox w) in
     filter is_fetch (trace w') = filter is_fetch (trace w)
     /\ filter is_RaiseSignal (trace w') = filter is_RaiseSignal (trace w).
Proof.
  intros Ha Hr.
  assert (E : __set_up_runtime env w =
    (Return ERROR,
     after [SetAffinity (env_set_affinity env); Register name READY (VResponse ERROR)] w)).
  { unfold_methods. unfold_monad. cbn. rewrite Ha, Hr. cbn.
    unfold after. by rewrite <- app_assoc. }
  assert (R : run env inbox w = __set_up_runtime env w).
  { unfold run at 1. unfold bind, ret. by rewrite E. }
  split; [exact E|]. split; [exact R|].
  rewrite R, E. cbn. rewrite !filter_app. cbn. by rewrite !app_nil_r.
Qed.

Lemma registration_failure_aborts_quietly_witness :
  run env_register_fails [VCommand INIT] (new_world acts []) =
  __set_up_runtime env_register_fails (new_world acts []).
Proof.
  apply (registration_failure_aborts_quietly env_register_fails [VCommand INIT]
           (new_world acts []) (VStr "simulator")); reflexivity.
Defined.

(** ** A failed state update *)

(** The handler the dispatch table holds for a steering command. *)
Lemma dispatch_command env (cmd : SteeringCommands) :
  command_execution_choices env (VCommand cmd) =
  Some match cmd with
       | INIT => __execute_init_command env
       | START => __execute_start_command env
       | END => __execute_end_command env
       end.
Proof. by destruct cmd. Qed.

(** C1: what the code does when the registry answers a command's state
    update with ERROR.  [__respond_with_state_update_error] calls
    [__send_response_to_orchestrator] with two arguments where the
    method takes one, so the call raises [TypeError]: the handler does
    not return ERROR, no STATE_UPDATE_FATAL (nor anything else) is put
    on the Orchestrator-facing outbound queue, and the exception leaves
    the loop before its termination branch.  That the Manager is not
    contacted holds. *)
Theorem state_update_failure_raises_TypeError
    (env : environment) (cmd : SteeringCommands) (rest : list value) (w : world) :
  communicator (self w) = Some tt ->
  has_attribute (ac_registered_component_service (self w)) attr_current_state = true ->
  env_update_state env (trace w) (commanded_state cmd) = VResponse ERROR ->
  env_update_state env (trace w ++ [Receive application_companion_in_queue (VCommand cmd)])
    (commanded_state cmd) = VResponse ERROR ->
  let failed_update :=
    UpdateState (ac_registered_component_service (self w)) (commanded_state cmd)
      (VResponse ERROR) in
  (exists execute,
      command_execution_choices env (VCommand cmd) = Some execute
      /\ execute w = (Raise TypeError, after [failed_update] w))
  /\ __fetch_and_execute_steering_commands env (VCommand cmd :: rest) w =
       (Raise TypeError,
        after [Receive application_companion_in_queue (VCommand cmd); failed_update] w)
  /\ let w' := snd (__fetch_and_execute_steering_commands env (VCommand cmd :: rest) w) in
     sent application_companion_out_queue (trace w') =
       sent application_companion_out_queue (trace w)
     /\ filter is_manager_traffic (trace w') = filter is_manager_traffic (trace w)
     /\ filter is_RaiseSignal (trace w') = filter is_RaiseSignal (trace w).
Proof.
  intros Hc Hs Hu Hu' failed_update.
  assert (E : __fetch_and_execute_steering_commands env (VCommand cmd :: rest) w =
       (Raise TypeError,
        after [Receive application_companion_in_queue (VCommand cmd); failed_update] w)).
  { rewrite loop_unfold, dispatch_command.
    destruct cmd; unfold_methods; unfold_monad; cbn in Hu';
      repeat (progress (cbn; rewrite ?Hc, ?Hs, ?Hu'));
      unfold after; by rewrite <- app_assoc. }
  split.
  - eexists. split; [apply dispatch_command|].
    destruct cmd; unfold_methods; unfold_monad; cbn in Hu;
      by repeat (progress (cbn; rewrite ?Hs, ?Hu)).
  - split; [exact E|]. rewrite E. cbn. unfold sent.
    rewrite omap_app, !filter_app. cbn. by rewrite !app_nil_r.
Qed.

Lemma state_update_failure_raises_TypeError_witness :
  __fetch_and_execute_steering_commands env_update_fails
    [VCommand INIT; VCommand START] (ready env_update_fails [payload]) =
  (Raise TypeError,
   after [Receive application_companion_in_queue (VCommand INIT);
          UpdateState (VService 4242 "simulator") SYNCHRONIZING (VResponse ERROR)]
     (ready env_update_fails [payload])).
Proof.
  apply (state_update_failure_raises_TypeError env_update_fails INIT
           [VCommand START] (ready env_update_fails [payload])); reflexivity.
Defined.

(** ** An ERROR from the Manager *)

(** C4: for every steering command, when the state update succeeds and
    the Manager answers with the ERROR sentinel, the handler puts that
    very value on the Orchestrator-facing outbound queue as its last
    action and then returns ERROR; in the loop the termination signal
    comes right after that send, and the loop returns ERROR. *)
Theorem manager_error_is_forwarded
    (env : environment) (cmd : SteeringCommands) (rest replies : list value) (w : world) :
  communicator (self w) = Some tt ->
  has_attribute (ac_registered_component_service (self w)) attr_current_state = true ->
  (forall history, eq_Response (env_update_state env history (commanded_state cmd)) ERROR = false) ->
  manager_out w = VResponse ERROR :: replies ->
  (exists execute w1,
      command_execution_choices env (VCommand cmd) = Some execute
      /\ execute w = (Return ERROR, w1)
      /\ trace w1 =
           trace w ++
           [UpdateState (ac_registered_component_service (self w)) (commanded_state cmd)
              (env_update_state env (trace w) (commanded_state cmd))] ++
           exchange cmd (VResponse ERROR)
      /\ last (trace w1) = Some (Send (VResponse ERROR) application_companion_out_queue))
  /\ (exists w2,
      __fetch_and_execute_steering_commands env (VCommand cmd :: rest) w = (Return ERROR, w2)
      /\ let history := trace w ++ [Receive application_companion_in_queue (VCommand cmd)] in
         trace w2 =
           history ++
           [UpdateState (ac_registered_component_service (self w)) (commanded_state cmd)
              (env_update_state env history (commanded_state cmd))] ++
           exchange cmd (VResponse ERROR) ++ [RaiseSignal]).
Proof.
  intros Hc Hs Hu Hm.
  destruct cmd; cbn in Hu.
  all: split;
    [ eexists _, _; split; [reflexivity|]
    | eexists; rewrite loop_unfold; cbn [command_execution_choices] ].
  all: unfold_methods; unfold_monad;
    repeat (progress (cbn; rewrite ?Hc, ?Hs, ?Hu, ?Hm)).
  all: split; [reflexivity|]; cbn; rewrite <- ?app_assoc; cbn.
  all: try done.
  all: split; [reflexivity|]; by rewrite last_app.
Qed.

Lemma manager_error_is_forwarded_witness :
  exists w2,
    __fetch_and_execute_steering_commands env_fine [VCommand START; VCommand END]
      (ready env_fine [VResponse ERROR]) = (Return ERROR, w2)
    /\ sent application_companion_out_queue (trace w2) = [VResponse ERROR].
Proof.
  destruct (manager_error_is_forwarded env_fine START [VCommand END] []
              (ready env_fine [VResponse ERROR])) as [_ [w2 [E T]]];
    try reflexivity.
  exists w2. split; [exact E|]. cbn in T. rewrite T. reflexivity.
Defined.

(** ** Steps that succeed *)

Lemma init_connected env w :
  eq_Response (env_connect env) ERROR = false ->
  __init__ env w = (Return tt, after (init_effects env) w).
Proof.
  intros H. unfold __init__. unfold_monad. cbn. rewrite H. cbn.
  unfold after, init_effects. by rewrite <- !app_assoc.
Qed.

Lemma set_up_runtime_registered env w name :
  actions (self w) !! "action" = Some name ->
  eq_Response (env_register env) ERROR = false ->
  has_attribute (env_find_by_id env) attr_id = true ->
  has_attribute (env_find_by_id env) attr_name = true ->
  __set_up_runtime env w =
    (Return OK,
     {| self := set_communicator
                  (set_service (env_find_by_id env) (set_is_registered (self w)));
        trace := trace w ++ bootstrap_effects env name;
        manager_out := manager_out w |}).
Proof.
  intros Ha Hr Hid Hnm. unfold __set_up_runtime. unfold_monad. cbn.
  rewrite Ha. cbn. rewrite Hr. cbn. rewrite Hid. cbn. rewrite Hnm. cbn.
  unfold bootstrap_effects. by rewrite <- !app_assoc.
Qed.

Lemma command_succeeds env cmd w r replies :
  communicator (self w) = Some tt ->
  has_attribute (ac_registered_component_service (self w)) attr_current_state = true ->
  eq_Response (env_update_state env (trace w) (commanded_state cmd)) ERROR = false ->
  manager_out w = r :: replies ->
  eq_Response r ERROR = false ->
  execute_command env cmd w =
    (Return OK,
     {| self := with_manager cmd (self w);
        trace := trace w ++
                 UpdateState (ac_registered_component_service (self w))
                   (commanded_state cmd)
                   (env_update_state env (trace w) (commanded_state cmd))
                 :: exchange cmd r;
        manager_out := replies |}).
Proof.
  intros Hc Hs Hu Hm Hr.
  destruct cmd; cbn in Hu; unfold execute_command; unfold_methods; unfold_monad.
  all: repeat (progress (cbn; rewrite ?Hc, ?Hs, ?Hu, ?Hm, ?Hr)).
  all: rewrite <- ?app_assoc; cbn; reflexivity.
Qed.

(** One iteration of the loop, for a value the dispatch table knows. *)
Lemma loop_step env current rest execute w :
  communicator (self w) = Some tt ->
  command_execution_choices env current = Some execute ->
  __fetch_and_execute_steering_commands env (current :: rest) w =
    match execute (after [Receive application_companion_in_queue current] w) with
    | (Return ERROR, w1) => (Return ERROR, after [RaiseSignal] w1)
    | (Return OK, w1) =>
        if eq_SteeringCommands current END then (Return OK, w1)
        else __fetch_and_execute_steering_commands env rest w1
    | (Raise e, w1) => (Raise e, w1)
    | (Blocked, w1) => (Blocked, w1)
    end.
Proof.
  intros Hc Hd. rewrite loop_unfold. unfold bind at 1. unfold get_self.
  rewrite Hc, (dispatch_hashable env current execute Hd), Hd.
  unfold bind, emit. cbn. unfold after.
  destruct (execute _) as [[[]| |] w1]; cbn [Response_eqb]; try reflexivity.
  unfold ret. by destruct (eq_SteeringCommands current END).
Qed.

Lemma loop_command_succeeds env cmd rest w r replies :
  communicator (self w) = Some tt ->
  has_attribute (ac_registered_component_service (self w)) attr_current_state = true ->
  (forall history, eq_Response (env_update_state env history (commanded_state cmd)) ERROR = false) ->
  manager_out w = r :: replies ->
  eq_Response r ERROR = false ->
  __fetch_and_execute_steering_commands env (VCommand cmd :: rest) w =
    if eq_SteeringCommands (VCommand cmd) END
    then (Return OK, command_done env cmd r replies w)
    else __fetch_and_execute_steering_commands env rest (command_done env cmd r replies w).
Proof.
  intros Hc Hs Hu Hm Hr.
  rewrite (loop_step env _ _ (execute_command env cmd) w Hc (dispatch_command env cmd)).
  rewrite (command_succeeds env cmd _ r replies); try assumption; [reflexivity|].
  apply Hu.
Qed.

Lemma command_done_communicator env cmd r replies w :
  communicator (self (command_done env cmd r replies w)) = communicator (self w).
Proof. by destruct cmd. Qed.

Lemma command_done_service env cmd r replies w :
  ac_registered_component_service (self (command_done env cmd r replies w)) =
  ac_registered_component_service (self w).
Proof. by destruct cmd. Qed.

(** What a command that went through adds to what the registry, the
    Orchestrator and the process have seen. *)
Lemma command_done_observations env cmd r replies w :
  (forall history, eq_Response (env_update_state env history (commanded_state cmd)) ERROR = false) ->
  states_written (trace (command_done env cmd r replies w)) =
    states_written (trace w) ++ [commanded_state cmd]
  /\ sent application_companion_out_queue (trace (command_done env cmd r replies w)) =
       sent application_companion_out_queue (trace w) ++ [r]
  /\ filter is_RaiseSignal (trace (command_done env cmd r replies w)) =
       filter is_RaiseSignal (trace w).
Proof.
  intros Hu. unfold command_done, states_written, sent. cbn [trace].
  rewrite <- !app_assoc, !omap_app, !filter_app.
  specialize (Hu (trace w ++ [Receive application_companion_in_queue (VCommand cmd)])).
  revert Hu. generalize (env_update_state env
    (trace w ++ [Receive application_companion_in_queue (VCommand cmd)])
    (commanded_state cmd)).
  intros rc Hrc.
  destruct cmd; cbn; rewrite Hrc; cbn; by rewrite ?app_nil_r.
Qed.

(** ** The nominal run *)

(** C3: a Companion that is constructed and run while the Orchestrator
    delivers INIT, START, END, whose registration and state updates are
    all accepted and whose Manager answers each command with something
    other than ERROR, writes exactly READY, SYNCHRONIZING, RUNNING,
    TERMINATED to the registry, in that order, and returns OK; the
    Orchestrator gets the Manager's three answers, in order, and no
    termination signal is raised. *)
Theorem nominal_run
    (env : environment) (acts : gmap string value) (name : value)
    (id : Z) (nm : string) (r1 r2 r3 : value) (replies more : list value) :
  eq_Response (env_connect env) ERROR = false ->
  acts !! "action" = Some name ->
  eq_Response (env_register env) ERROR = false ->
  env_find_by_id env = VService id nm ->
  (forall history st, eq_Response (env_update_state env history st) ERROR = false) ->
  eq_Response r1 ERROR = false ->
  eq_Response r2 ERROR = false ->
  eq_Response r3 ERROR = false ->
  exists w',
    lifetime env ([VCommand INIT; VCommand START; VCommand END] ++ more)
      (new_world acts (r1 :: r2 :: r3 :: replies)) = (Return OK, w')
    /\ states_written (trace w') = [READY; SYNCHRONIZING; RUNNING; TERMINATED]
    /\ sent application_companion_out_queue (trace w') = [r1; r2; r3]
    /\ filter is_RaiseSignal (trace w') = [].
Proof.
  intros Hconn Ha Hreg Hfind Hupd H1 H2 H3.
  unfold lifetime, run. unfold bind at 1.
  rewrite (init_connected _ _ Hconn).
  unfold bind at 1.
  rewrite (set_up_runtime_registered env _ name);
    [ | exact Ha | exact Hreg | by rewrite Hfind ..].
  cbn [Response_eqb app].
  match goal with |- context [__fetch_and_execute_steering_commands env _ ?w] => set (w0 := w) end.
  assert (Hc0 : communicator (self w0) = Some tt) by reflexivity.
  assert (Hs0 : has_attribute (ac_registered_component_service (self w0))
                  attr_current_state = true) by (cbn; by rewrite Hfind).
  rewrite (loop_command_succeeds env INIT _ w0 r1 (r2 :: r3 :: replies) Hc0 Hs0
             (fun h => Hupd h _) eq_refl H1).
  cbn [eq_SteeringCommands].
  set (w1 := command_done env INIT r1 _ w0).
  assert (Hc1 : communicator (self w1) = Some tt) by reflexivity.
  assert (Hs1 : has_attribute (ac_registered_component_service (self w1))
                  attr_current_state = true) by exact Hs0.
  rewrite (loop_command_succeeds env START _ w1 r2 (r3 :: replies) Hc1 Hs1
             (fun h => Hupd h _) eq_refl H2).
  cbn [eq_SteeringCommands].
  set (w2 := command_done env START r2 _ w1).
  assert (Hc2 : communicator (self w2) = Some tt) by reflexivity.
  assert (Hs2 : has_attribute (ac_registered_component_service (self w2))
                  attr_current_state = true) by exact Hs0.
  rewrite (loop_command_succeeds env END _ w2 r3 replies Hc2 Hs2
             (fun h => Hupd h _) eq_refl H3).
  cbn [eq_SteeringCommands].
  eexists. split; [reflexivity|].
  destruct (command_done_observations env END r3 replies w2 (fun h => Hupd h _))
    as (-> & -> & ->).
  unfold w2.
  destruct (command_done_observations env START r2 (r3 :: replies) w1 (fun h => Hupd h _))
    as (-> & -> & ->).
  unfold w1.
  destruct (command_done_observations env INIT r1 (r2 :: r3 :: replies) w0 (fun h => Hupd h _))
    as (-> & -> & ->).
  unfold states_written, sent, w0. cbn. by rewrite Hreg.
Qed.

Lemma nominal_run_witness :
  exists w',
    lifetime env_fine [VCommand INIT; VCommand START; VCommand END]
      (new_world Scenario.acts [payload; VResponse OK; VResponse OK]) = (Return OK, w')
    /\ states_written (trace w') = [READY; SYNCHRONIZING; RUNNING; TERMINATED].
Proof.
  destruct (nominal_run env_fine Scenario.acts (VStr "simulator") 4242 "simulator"
              payload (VResponse OK) (VResponse OK) [] [])
    as [w' [E [S _]]]; try reflexivity.
  exists w'. split; [exact E | exact S].
Defined.

(** ** What handlers and the loop can add to the trace *)

Lemma handler_follows_script env cmd w :
  exists l,
    trace (snd (execute_command env cmd w)) = trace w ++ l
    /\ l `prefix_of`
         handler_script (VCommand cmd)
           (ac_registered_component_service (self w))
           (env_update_state env (trace w) (commanded_state cmd))
           (default VNone (head (manager_out w))).
Proof.
  remember (env_update_state env (trace w) (commanded_state cmd)) as rc eqn:Erc.
  destruct (has_attribute (ac_registered_component_service (self w))
              attr_current_state) eqn:Hs;
    destruct (eq_Response rc ERROR) eqn:Hu;
    destruct (communicator (self w)) as [[]|] eqn:Hc;
    destruct (manager_out w) as [|r replies] eqn:Hm;
    try destruct (eq_Response r ERROR) eqn:Hr.
  all: destruct cmd; cbn in Erc.
  all: unfold execute_command; unfold_methods; unfold_monad.
  all: repeat (progress (cbn; rewrite <- ?Erc, ?Hs, ?Hu, ?Hc, ?Hm, ?Hr)).
  all: eexists; (split; [rewrite <- ?app_assoc; try reflexivity; by rewrite app_nil_r | ]).
  all: by eexists.
Qed.

Lemma dispatch_follows_script env v execute w :
  command_execution_choices env v = Some execute ->
  exists svc rc r l,
    trace (snd (execute w)) = trace w ++ l
    /\ l `prefix_of` handler_script v svc rc r.
Proof.
  intros Hd.
  destruct v as [ | ? | cmd | [] | ? | ? | ? | ? ? | ? ? ]; try discriminate.
  - rewrite dispatch_command in Hd. injection Hd as <-.
    destruct (handler_follows_script env cmd w) as (l & E & P).
    by eexists _, _, _, l.
  - injection Hd as <-. exists VNone, VNone, VNone, []. cbn.
    by rewrite app_nil_r.
Qed.

Lemma loop_follows_script env inbox :
  forall w, exists l,
    trace (snd (__fetch_and_execute_steering_commands env inbox w)) = trace w ++ l
    /\ loop_script l.
Proof.
  induction inbox as [|v rest IH]; intros w.
  - exists []. split; [|constructor]. rewrite app_nil_r. cbn.
    unfold bind, get_self. by destruct (communicator (self w)).
  - destruct (communicator (self w)) as [[]|] eqn:Hc.
    2:{ exists []. split; [|constructor]. rewrite app_nil_r, loop_unfold.
        unfold bind, get_self. by rewrite Hc. }
    destruct (command_execution_choices env v) as [execute|] eqn:Hd.
    2:{ exists ([Receive application_companion_in_queue v] ++ [] ++ []).
        split; [|by eapply (script_next v VNone VNone VNone), script_idle; apply prefix_nil].
        by rewrite (loop_unknown env v rest w Hc Hd). }
    rewrite (loop_step env v rest execute w Hc Hd).
    destruct (dispatch_follows_script env v execute
                (after [Receive application_companion_in_queue v] w) Hd)
      as (svc & rc & r & l & E & P).
    destruct (execute _) as [[[]| |] w1]; cbn in E.
    + destruct (eq_SteeringCommands v END).
      * exists (Receive application_companion_in_queue v :: l ++ []). cbn.
        split; [by rewrite E, <- app_assoc, app_nil_r | by eapply script_next, script_idle].
      * destruct (IH w1) as (l' & E' & S').
        exists (Receive application_companion_in_queue v :: l ++ l').
        split; [by rewrite E', E, <- !app_assoc | by eapply script_next].
    + exists (Receive application_companion_in_queue v :: l ++ [RaiseSignal]). cbn.
      split; [by rewrite E, <- !app_assoc | by eapply script_signal].
    + exists (Receive application_companion_in_queue v :: l ++ []). cbn.
      split; [by rewrite E, <- app_assoc, app_nil_r | by eapply script_next, script_idle].
    + exists (Receive application_companion_in_queue v :: l ++ []). cbn.
      split; [by rewrite E, <- app_assoc, app_nil_r | by eapply script_next, script_idle].
Qed.

Lemma forallb_prefix {A} (P : A -> bool) (l k : list A) :
  l `prefix_of` k -> forallb P k = true -> forallb P l = true.
Proof. intros [k' ->]. rewrite forallb_app. by intros [? _]%andb_prop. Qed.

Lemma handler_script_effects v svc rc r :
  forallb loop_effect (handler_script v svc rc r) = true.
Proof. by destruct v as [ | | [] | | | | | | ]. Qed.

Lemma loop_script_effects l : loop_script l -> forallb loop_effect l = true.
Proof.
  induction 1 as [ | v svc rc r l P | v svc rc r l rest P _ IH ]; [done | |].
  - cbn. rewrite forallb_app. cbn.
    by rewrite (forallb_prefix _ _ _ P (handler_script_effects _ _ _ _)).
  - cbn. rewrite forallb_app, IH.
    by rewrite (forallb_prefix _ _ _ P (handler_script_effects _ _ _ _)).
Qed.

(** Effects of a kind the loop does not have are not added by it. *)
Lemma filter_foreign (P : effect -> bool) (l : list effect) :
  (forall e, P e = true -> loop_effect e = false) ->
  forallb loop_effect l = true ->
  filter P l = [].
Proof.
  intros HP. induction l as [|e l IH]; intros Hl; [done|].
  cbn in Hl. apply andb_prop in Hl as [He Hl].
  rewrite filter_cons_False; [by apply IH|].
  intros HPe%Is_true_true. rewrite (HP e HPe) in He. discriminate.
Qed.

Lemma loop_adds_no_foreign_effect env inbox w (P : effect -> bool) :
  (forall e, P e = true -> loop_effect e = false) ->
  filter P (trace (snd (__fetch_and_execute_steering_commands env inbox w))) =
  filter P (trace w).
Proof.
  intros HP. destruct (loop_follows_script env inbox w) as (l & -> & S).
  by rewrite filter_app, (filter_foreign P l HP (loop_script_effects l S)), app_nil_r.
Qed.

(** *** Order of effects *)

Lemma precedes_from_app s p q l1 l2 :
  precedes_from s p q (l1 ++ l2) =
  precedes_from s p q l1 && precedes_from (s || existsb p l1) p q l2.
Proof.
  revert s. induction l1 as [|e l1 IH]; intros s; cbn.
  - by rewrite orb_false_r.
  - by rewrite IH, andb_assoc, orb_assoc.
Qed.

Lemma precedes_from_prefix s p q l k :
  l `prefix_of` k -> precedes_from s p q k = true -> precedes_from s p q l = true.
Proof. intros [k' ->]. rewrite precedes_from_app. by intros [? _]%andb_prop. Qed.

Section Order.

Variables p q : effect -> bool.
Hypothesis q_signal : q RaiseSignal = false.
Hypothesis iteration_in_order :
  forall s v svc rc r,
    precedes_from s p q
      (Receive application_companion_in_queue v :: handler_script v svc rc r) = true.

Lemma loop_script_in_order l :
  loop_script l -> forall s, precedes_from s p q l = true.
Proof.
  induction 1 as [ | v svc rc r l P | v svc rc r l rest P _ IH ]; intros s; [done | |].
  - change (precedes_from s p q
              ((Receive application_companion_in_queue v :: l) ++ [RaiseSignal]) = true).
    rewrite precedes_from_app. apply andb_true_intro. split.
    + apply (precedes_from_prefix _ _ _ _
        (Receive application_companion_in_queue v :: handler_script v svc rc r));
        [by apply prefix_cons | apply iteration_in_order].
    + cbn. by rewrite q_signal.
  - change (precedes_from s p q
              ((Receive application_companion_in_queue v :: l) ++ rest) = true).
    rewrite precedes_from_app, IH, andb_true_r.
    apply (precedes_from_prefix _ _ _ _
      (Receive application_companion_in_queue v :: handler_script v svc rc r));
      [by apply prefix_cons | apply iteration_in_order].
Qed.

Lemma loop_keeps_order env inbox w s :
  precedes_from s p q (trace w) = true ->
  precedes_from s p q
    (trace (snd (__fetch_and_execute_steering_commands env inbox w))) = true.
Proof.
  intros H. destruct (loop_follows_script env inbox w) as (l & -> & S).
  by rewrite precedes_from_app, H, loop_script_in_order.
Qed.

End Order.

(** ** Before the loop: construction and bootstrap *)

Lemma init_outcome env w :
  fst (__init__ env w) =
    (if eq_Response (env_connect env) ERROR then Raise ConnectionFailure else Return tt)
  /\ snd (__init__ env w) = after (init_added env) w.
Proof.
  unfold __init__, init_added, after. unfold_monad. cbn.
  destruct (eq_Response (env_connect env) ERROR); cbn;
    by rewrite <- ?app_assoc.
Qed.

Lemma set_up_runtime_outcome env w :
  fst (__set_up_runtime env w) = bootstrap_result env (actions (self w))
  /\ trace (snd (__set_up_runtime env w)) = trace w ++ bootstrap_added env (actions (self w))
  /\ manager_out (snd (__set_up_runtime env w)) = manager_out w
  /\ actions (self (snd (__set_up_runtime env w))) = actions (self w)
  /\ application_manager (self (snd (__set_up_runtime env w))) = application_manager (self w).
Proof.
  unfold __set_up_runtime, bootstrap_result, bootstrap_added, lookup_usable.
  unfold_monad. cbn.
  destruct (actions (self w) !! "action") as [name|]; cbn; [|done].
  destruct (eq_Response (env_register env) ERROR); cbn; [by rewrite <- ?app_assoc|].
  destruct (has_attribute (env_find_by_id env) attr_id); cbn; [|by rewrite <- ?app_assoc].
  destruct (has_attribute (env_find_by_id env) attr_name); cbn; by rewrite <- ?app_assoc.
Qed.

Lemma run_outcome env inbox w :
  run env inbox w =
    match __set_up_runtime env w with
    | (Return OK, w1) => __fetch_and_execute_steering_commands env inbox w1
    | other => other
    end.
Proof.
  unfold run, bind, ret. by destruct (__set_up_runtime env w) as [[[]| |] w1].
Qed.

Lemma lifetime_before_loop env acts replies inbox :
  if enters_loop env acts
  then exists w1,
         lifetime env inbox (new_world acts replies) =
           __fetch_and_execute_steering_commands env inbox w1
         /\ trace w1 = before_loop env acts
  else trace (snd (lifetime env inbox (new_world acts replies))) = before_loop env acts.
Proof.
  destruct (init_outcome env (new_world acts replies)) as [Ef Es].
  assert (L : lifetime env inbox (new_world acts replies) =
              match fst (__init__ env (new_world acts replies)) with
              | Return _ => run env inbox (snd (__init__ env (new_world acts replies)))
              | Raise e => (Raise e, snd (__init__ env (new_world acts replies)))
              | Blocked => (Blocked, snd (__init__ env (new_world acts replies)))
              end).
  { unfold lifetime, bind. by destruct (__init__ env _) as [[]]. }
  rewrite L, Ef, Es. clear L Ef Es.
  unfold enters_loop, before_loop.
  destruct (eq_Response (env_connect env) ERROR); cbn [negb andb].
  { cbn. by rewrite app_nil_r. }
  rewrite run_outcome.
  destruct (set_up_runtime_outcome env (after (init_added env) (new_world acts replies)))
    as (Rf & Rt & _).
  destruct (__set_up_runtime env _) as [r1 w1]. cbn in Rf, Rt. subst r1.
  destruct (bootstrap_result env acts) as [[]| |]; [by exists w1 | done ..].
Qed.

(** ** Bootstrap once registration succeeded *)

(** C10, as stated, fails: registration succeeds, the lookup by id finds
    nothing ([None]), and bootstrap does not return OK; the debug line
    that reads [id] and [name] from the lookup's answer raises
    [AttributeError]. *)
Lemma bootstrap_with_empty_lookup_raises :
  eq_Response (env_register env_lookup_empty) ERROR = false
  /\ fst (__set_up_runtime env_lookup_empty (new_world Scenario.acts [])) = Raise AttributeError
  /\ fst (__set_up_runtime env_lookup_empty (new_world Scenario.acts [])) <> Return OK.
Proof. split; [reflexivity|]. split; [reflexivity | discriminate]. Qed.

(** C10, amended: once the registration succeeded, bootstrap never
    returns ERROR; the answer of [find_by_id] is stored as it is, with
    no error check; and when that answer has the [id] and [name] the
    next line reads, bootstrap returns OK. *)
Theorem bootstrap_after_registration
    (env : environment) (w : world) (name : value) :
  actions (self w) !! "action" = Some name ->
  eq_Response (env_register env) ERROR = false ->
  fst (__set_up_runtime env w) <> Return ERROR
  /\ ac_registered_component_service (self (snd (__set_up_runtime env w))) =
       env_find_by_id env
  /\ (lookup_usable env = true -> fst (__set_up_runtime env w) = Return OK).
Proof.
  intros Ha Hr.
  destruct (set_up_runtime_outcome env w) as (Rf & _).
  rewrite Rf. unfold bootstrap_result. rewrite Ha, Hr.
  split; [by destruct (lookup_usable env)|].
  split; [|by intros ->].
  unfold __set_up_runtime. unfold_monad. cbn. rewrite Ha. cbn. rewrite Hr. cbn.
  destruct (has_attribute (env_find_by_id env) attr_id); cbn; [|done].
  by destruct (has_attribute (env_find_by_id env) attr_name).
Qed.

Lemma bootstrap_after_registration_witness :
  fst (__set_up_runtime env_fine (new_world Scenario.acts [])) <> Return ERROR
  /\ ac_registered_component_service
       (self (snd (__set_up_runtime env_fine (new_world Scenario.acts [])))) =
     VService 4242 "simulator"
  /\ (lookup_usable env_fine = true ->
      fst (__set_up_runtime env_fine (new_world Scenario.acts [])) = Return OK).
Proof.
  apply (bootstrap_after_registration env_fine (new_world Scenario.acts [])
           (VStr "simulator")); reflexivity.
Defined.

(** ** The registration flag *)

Lemma existsb_foreign (P : effect -> bool) (l : list effect) :
  (forall e, P e = true -> loop_effect e = false) ->
  forallb loop_effect l = true ->
  existsb P l = false.
Proof.
  intros HP. induction l as [|e l IH]; intros Fl; [done|]. cbn in Fl |- *.
  apply andb_prop in Fl as [He Hl]. rewrite (IH Hl), orb_false_r.
  destruct (P e) eqn:Pe; [by rewrite (HP e Pe) in He | done].
Qed.

Lemma before_loop_flag env acts :
  (length (filter is_FlagSet (before_loop env acts)) <= 1)%nat
  /\ existsb is_FlagSet (before_loop env acts) =
       existsb is_successful_Register (before_loop env acts)
  /\ precedes is_FlagSet is_FindById (before_loop env acts) = true.
Proof.
  unfold before_loop, init_added, bootstrap_added, precedes.
  destruct (eq_Response (env_connect env) ERROR); [cbn; auto|].
  destruct (acts !! "action"); [|cbn; auto].
  destruct (eq_Response (env_register env) ERROR) eqn:Hr; cbn; rewrite ?Hr; [auto|].
  destruct (lookup_usable env); cbn; auto.
Qed.

(** The flag along the trace of a lifetime. *)
Lemma lifetime_flag_trace
    (env : environment) (acts : gmap string value) (replies inbox : list value) :
  let t := trace (snd (lifetime env inbox (new_world acts replies))) in
  (length (filter is_FlagSet t) <= 1)%nat
  /\ existsb is_FlagSet t = existsb is_successful_Register t
  /\ precedes is_FlagSet is_FindById t = true.
Proof.
  intros t. subst t.
  destruct (before_loop_flag env acts) as (Hn & Hiff & Hord).
  pose proof (lifetime_before_loop env acts replies inbox) as L.
  destruct (enters_loop env acts); [|by rewrite L].
  destruct L as (w1 & -> & Ht).
  destruct (loop_follows_script env inbox w1) as (l & El & Sl).
  pose proof (loop_script_effects l Sl) as Fl.
  rewrite (loop_adds_no_foreign_effect env inbox w1 is_FlagSet), Ht;
    [|by intros []].
  split; [exact Hn|].
  rewrite El, Ht, !existsb_app, Hiff.
  split.
  - f_equal.
    rewrite (existsb_foreign is_FlagSet l), (existsb_foreign is_successful_Register l);
      [done | by intros [] | done | by intros [] | done].
  - unfold precedes in *. rewrite precedes_from_app, Hord. cbn [andb].
    apply loop_script_in_order; [done | | done].
    intros s v svc rc r. by destruct v as [ | | [] | | | | | | ].
Qed.

(** ** The Manager and its queues *)

(** C2, as stated, fails: after construction alone, with nothing yet
    taken from the inbound queue, both Manager queues have been created;
    their creation does not wait for INIT. *)
Lemma manager_queues_exist_before_INIT :
  let w := snd (__init__ env_fine (new_world Scenario.acts [])) in
  received_commands (trace w) = []
  /\ existsb (is_NewQueue application_manager_in_queue) (trace w) = true
  /\ existsb (is_NewQueue application_manager_out_queue) (trace w) = true
  /\ precedes (is_fetch_of INIT) is_manager_side_creation (trace w) = false.
Proof. repeat split. Qed.

Lemma before_loop_manager env acts :
  forallb (fun e => negb (loop_effect e)) (before_loop env acts) = true.
Proof.
  unfold before_loop, init_added, bootstrap_added.
  destruct (eq_Response (env_connect env) ERROR); [done|].
  destruct (acts !! "action"); [|done].
  destruct (eq_Response (env_register env) ERROR); [done|].
  by destruct (lookup_usable env).
Qed.

Lemma precedes_from_absent s p q l :
  forallb (fun e => negb (q e)) l = true -> precedes_from s p q l = true.
Proof.
  revert s. induction l as [|e l IH]; intros s H; [done|]. cbn in H |- *.
  apply andb_prop in H as [-> Hl]. by rewrite IH.
Qed.

Lemma forallb_weaken {A} (P Q : A -> bool) (l : list A) :
  (forall x, P x = true -> Q x = true) -> forallb P l = true -> forallb Q l = true.
Proof.
  intros H. induction l as [|x l IH]; [done|]. cbn.
  intros [Hx Hl]%andb_prop. by rewrite (H x Hx), IH.
Qed.

Ltac effect_cases :=
  let e := fresh "e" in
  intros e; destruct e; cbn; try done; repeat case_match; done.

(** The Manager along the trace of a lifetime. *)
Lemma lifetime_manager_order
    (env : environment) (acts : gmap string value) (replies inbox : list value) :
  let w0 := snd (__init__ env (new_world acts replies)) in
  let t := trace (snd (lifetime env inbox (new_world acts replies))) in
  (existsb (is_NewQueue application_manager_in_queue) (trace w0) = true
   /\ existsb (is_NewQueue application_manager_out_queue) (trace w0) = true
   /\ application_manager (self w0) = None
   /\ existsb is_NewManager (trace w0) = false)
  /\ precedes (is_fetch_of INIT) is_NewManager t = true
  /\ precedes is_NewManager is_StartManager t = true
  /\ precedes is_StartManager (is_command_to_manager INIT) t = true.
Proof.
  intros w0 t. subst w0 t. split.
  { destruct (init_outcome env (new_world acts replies)) as [_ ->].
    unfold init_added. cbn. by destruct (eq_Response (env_connect env) ERROR). }
  assert (B : forall p q : effect -> bool,
             (forall e, q e = true -> loop_effect e = true) ->
             precedes p q (before_loop env acts) = true).
  { intros p q Hq. apply precedes_from_absent.
    eapply forallb_weaken; [|apply before_loop_manager].
    intros e He. cbn in He |- *. destruct (q e) eqn:Qe; [|done].
    by rewrite (Hq e Qe) in He. }
  pose proof (lifetime_before_loop env acts replies inbox) as L.
  destruct (enters_loop env acts).
  - destruct L as (w1 & -> & Ht). unfold precedes in *.
    repeat split.
    all: apply loop_keeps_order; [done | | rewrite Ht; apply B; effect_cases].
    all: intros [] v svc rc r; by destruct v as [ | | [] | | | | | | ].
  - rewrite L. repeat split; apply B; effect_cases.
Qed.

(** ** How the loop ends *)

Lemma eq_SteeringCommands_true v c :
  eq_SteeringCommands v c = true -> v = VCommand c.
Proof. by destruct v as [ | | [] | | | | | | ], c. Qed.

Lemma eq_SteeringCommands_false v c :
  eq_SteeringCommands v c = false -> v <> VCommand c.
Proof. intros H ->. by destruct c. Qed.

Lemma received_commands_app t1 t2 :
  received_commands (t1 ++ t2) = received_commands t1 ++ received_commands t2.
Proof. apply omap_app. Qed.

Lemma prefix_received_commands v svc rc r l :
  l `prefix_of` handler_script v svc rc r -> received_commands l = [].
Proof.
  intros [k E].
  assert (H : received_commands (handler_script v svc rc r) = [])
    by (by destruct v as [ | | [] | | | | | | ]).
  rewrite E, received_commands_app in H.
  by apply app_eq_nil in H as [? _].
Qed.

(** A loop that returns OK has taken END last. *)
Lemma loop_OK_after_END env inbox :
  forall w w',
    __fetch_and_execute_steering_commands env inbox w = (Return OK, w') ->
    last (received_commands (trace w')) = Some (VCommand END).
Proof.
  induction inbox as [|v rest IH]; intros w w' H.
  - cbn in H. unfold bind, get_self, raise, block in H.
    by destruct (communicator (self w)).
  - destruct (communicator (self w)) as [[]|] eqn:Hc.
    2:{ rewrite loop_unfold in H. unfold bind, get_self, raise in H.
        by rewrite Hc in H. }
    destruct (command_execution_choices env v) as [execute|] eqn:Hd.
    2:{ by rewrite (loop_unknown env v rest w Hc Hd) in H. }
    rewrite (loop_step env v rest execute w Hc Hd) in H.
    destruct (dispatch_follows_script env v execute
                (after [Receive application_companion_in_queue v] w) Hd)
      as (svc & rc & r & l & E & P).
    destruct (execute _) as [[[]| |] w1]; try discriminate. cbn in E.
    destruct (eq_SteeringCommands v END) eqn:Hv; [|by apply (IH w1)].
    injection H as <-. apply eq_SteeringCommands_true in Hv as ->.
    rewrite E, !received_commands_app.
    rewrite (prefix_received_commands _ _ _ _ _ P), app_nil_r.
    apply last_snoc.
Qed.

(** A loop that returns ERROR has raised the termination signal last. *)
Lemma loop_ERROR_after_signal env inbox :
  forall w w',
    __fetch_and_execute_steering_commands env inbox w = (Return ERROR, w') ->
    last (trace w') = Some RaiseSignal.
Proof.
  induction inbox as [|v rest IH]; intros w w' H.
  - cbn in H. unfold bind, get_self, raise, block in H.
    by destruct (communicator (self w)).
  - destruct (communicator (self w)) as [[]|] eqn:Hc.
    2:{ rewrite loop_unfold in H. unfold bind, get_self, raise in H.
        by rewrite Hc in H. }
    destruct (command_execution_choices env v) as [execute|] eqn:Hd.
    2:{ by rewrite (loop_unknown env v rest w Hc Hd) in H. }
    rewrite (loop_step env v rest execute w Hc Hd) in H.
    destruct (execute _) as [[[]| |] w1]; try discriminate.
    + destruct (eq_SteeringCommands v END); [discriminate | by apply (IH w1)].
    + injection H as <-. apply last_snoc.
Qed.

(** C6: in the dispatch loop, for a value the dispatch table knows and
    a handler that returns: a result of ERROR ends the loop with ERROR
    after the termination signal, whatever the command; a result of OK
    ends the loop with OK when the command is END and goes on with the
    next value otherwise.  Hence a loop that returns OK took END last,
    and a loop that returns ERROR raised the signal last. *)
Theorem only_END_ends_loop_with_success
    (env : environment) (current : value) (rest : list value)
    (execute : M Response) (w w1 : world) (rc : Response) :
  communicator (self w) = Some tt ->
  command_execution_choices env current = Some execute ->
  execute (after [Receive application_companion_in_queue current] w) = (Return rc, w1) ->
  (rc = ERROR ->
     __fetch_and_execute_steering_commands env (current :: rest) w =
       (Return ERROR, after [RaiseSignal] w1))
  /\ (rc = OK -> current = VCommand END ->
        __fetch_and_execute_steering_commands env (current :: rest) w = (Return OK, w1))
  /\ (rc = OK -> current <> VCommand END ->
        __fetch_and_execute_steering_commands env (current :: rest) w =
          __fetch_and_execute_steering_commands env rest w1)
  /\ (forall inbox w0 w',
        __fetch_and_execute_steering_commands env inbox w0 = (Return OK, w') ->
        last (received_commands (trace w')) = Some (VCommand END))
  /\ (forall inbox w0 w',
        __fetch_and_execute_steering_commands env inbox w0 = (Return ERROR, w') ->
        last (trace w') = Some RaiseSignal).
Proof.
  intros Hc Hd He.
  rewrite (loop_step env current rest execute w Hc Hd), He.
  split; [by intros ->|].
  split; [by intros -> ->|].
  split.
  - intros -> Hne. destruct (eq_SteeringCommands current END) eqn:Hv; [|done].
    by apply eq_SteeringCommands_true in Hv.
  - split; [apply loop_OK_after_END | apply loop_ERROR_after_signal].
Qed.

Lemma only_END_ends_loop_with_success_witness :
  __fetch_and_execute_steering_commands env_fine [VCommand START; VCommand END]
    (ready env_fine [VResponse OK; VResponse OK]) =
  __fetch_and_execute_steering_commands env_fine [VCommand END]
    (snd (__execute_start_command env_fine
            (after [Receive application_companion_in_queue (VCommand START)]
               (ready env_fine [VResponse OK; VResponse OK])))).
Proof.
  pose proof (only_END_ends_loop_with_success env_fine (VCommand START) [VCommand END]
                (__execute_start_command env_fine)
                (ready env_fine [VResponse OK; VResponse OK])
                (snd (__execute_start_command env_fine
                        (after [Receive application_companion_in_queue (VCommand START)]
                           (ready env_fine [VResponse OK; VResponse OK]))))
                OK eq_refl eq_refl eq_refl) as (_ & _ & H & _).
  apply H; [reflexivity | discriminate].
Defined.

(** ** Handlers and loop, case by case *)

Lemma execute_command_outcome env cmd w :
  execute_command env cmd w = handler_outcome env cmd w.
Proof.
  unfold handler_outcome.
  remember (env_update_state env (trace w) (commanded_state cmd)) as rc eqn:Erc.
  destruct (has_attribute (ac_registered_component_service (self w))
              attr_current_state) eqn:Hs;
    destruct (eq_Response rc ERROR) eqn:Hu;
    destruct (communicator (self w)) as [[]|] eqn:Hc;
    destruct (manager_out w) as [|r replies] eqn:Hm;
    try destruct (eq_Response r ERROR) eqn:Hr.
  all: destruct cmd; cbn in Erc.
  all: unfold execute_command; unfold_methods; unfold_monad.
  all: repeat (progress (cbn; rewrite <- ?Erc, ?Hs, ?Hu, ?Hc, ?Hm, ?Hr)).
  all: unfold after; rewrite <- ?app_assoc; cbn; try reflexivity.
  all: by rewrite <- Hm; destruct w.
Qed.

Lemma loop_run_complete env inbox :
  forall w,
    loop_run env inbox w
      (fst (__fetch_and_execute_steering_commands env inbox w))
      (snd (__fetch_and_execute_steering_commands env inbox w)).
Proof.
  induction inbox as [|v rest IH]; intros w.
  - cbn. unfold bind, get_self, raise, block.
    destruct (communicator (self w)) as [[]|] eqn:Hc; cbn; by constructor.
  - destruct (communicator (self w)) as [[]|] eqn:Hc.
    2:{ rewrite loop_unfold. unfold bind, get_self, raise. rewrite Hc. by constructor. }
    destruct (command_execution_choices env v) as [execute|] eqn:Hd.
    2:{ rewrite (loop_unknown env v rest w Hc Hd). by apply run_unknown. }
    rewrite (loop_step env v rest execute w Hc Hd).
    destruct (execute _) as [[[]| |] w1] eqn:He; cbn.
    + destruct (eq_SteeringCommands v END) eqn:Hv.
      * apply eq_SteeringCommands_true in Hv. subst v. by eapply run_end.
      * apply eq_SteeringCommands_false in Hv. eapply run_next; eauto.
    + by eapply run_error.
    + by eapply run_raise.
    + by eapply run_blocked.
Qed.

Lemma dispatch_outcome env v execute :
  command_execution_choices env v = Some execute ->
  (v = VEvent FATAL /\ execute = __handle_fatal_event)
  \/ (exists cmd, v = VCommand cmd /\ execute = execute_command env cmd).
Proof.
  destruct v as [ | ? | cmd | [] | ? | ? | ? | ? ? | ? ? ]; try discriminate.
  - rewrite dispatch_command. intros [= <-]. right. by exists cmd.
  - intros [= <-]. by left.
Qed.

Lemma sent_app q t1 t2 : sent q (t1 ++ t2) = sent q t1 ++ sent q t2.
Proof. apply omap_app. Qed.

Lemma manager_answers_app t1 t2 :
  manager_answers (t1 ++ t2) = manager_answers t1 ++ manager_answers t2.
Proof. apply omap_app. Qed.

Lemma states_written_app t1 t2 :
  states_written (t1 ++ t2) = states_written t1 ++ states_written t2.
Proof. apply omap_app. Qed.

(** What any handler of the dispatch table leaves unchanged, and how the
    Manager's answers travel through it. *)
Lemma handler_summary env v execute w res w1 :
  command_execution_choices env v = Some execute ->
  execute w = (res, w1) ->
  registration_of (self w1) = registration_of (self w)
  /\ received_commands (trace w1) = received_commands (trace w)
  /\ filter is_RaiseSignal (trace w1) = filter is_RaiseSignal (trace w)
  /\ exists k,
       manager_out w = k ++ manager_out w1
       /\ manager_answers (trace w1) = manager_answers (trace w) ++ k
       /\ sent application_companion_out_queue (trace w1) =
            sent application_companion_out_queue (trace w) ++ k.
Proof.
  intros Hd He.
  destruct (dispatch_outcome env v execute Hd) as [[-> ->] | (cmd & -> & ->)].
  { injection He as <- <-. repeat split. exists []. by rewrite !app_nil_r. }
  rewrite execute_command_outcome in He. unfold handler_outcome in He.
  destruct (has_attribute _ _); cbn [negb] in He.
  2:{ injection He as <- <-. repeat split. exists []. by rewrite !app_nil_r. }
  destruct (eq_Response (env_update_state _ _ _) ERROR).
  { injection He as <- <-. cbn [after self trace manager_out].
    rewrite received_commands_app, filter_app, manager_answers_app, sent_app.
    cbn. rewrite !app_nil_r. repeat split. exists []. by rewrite !app_nil_r. }
  destruct (communicator (self w)) as [[]|]; [destruct (manager_out w) as [|r replies]|];
    injection He as <- <-; cbn [self trace manager_out].
  all: rewrite received_commands_app, filter_app, manager_answers_app, sent_app.
  all: (split; [by destruct cmd|]).
  all: (split; [by destruct cmd; cbn; rewrite app_nil_r|]).
  all: (split; [by destruct cmd; cbn; rewrite app_nil_r|]).
  - exists []. by destruct cmd; cbn; rewrite !app_nil_r.
  - exists [r]. by destruct cmd.
  - exists []. by destruct cmd; cbn; rewrite !app_nil_r.
Qed.

Lemma loop_run_summary env inbox w res w' :
  loop_run env inbox w res w' ->
  registration_of (self w') = registration_of (self w)
  /\ (exists n, received_commands (trace w') = received_commands (trace w) ++ take n inbox)
  /\ filter is_RaiseSignal (trace w') =
       filter is_RaiseSignal (trace w) ++
       match res with Return ERROR => [RaiseSignal] | _ => [] end
  /\ exists k,
       manager_out w = k ++ manager_out w'
       /\ manager_answers (trace w') = manager_answers (trace w) ++ k
       /\ sent application_companion_out_queue (trace w') =
            sent application_companion_out_queue (trace w) ++ k.
Proof.
  assert (F : forall v w0,
             registration_of (self (after [Receive application_companion_in_queue v] w0)) =
               registration_of (self w0)
             /\ received_commands (trace (after [Receive application_companion_in_queue v] w0)) =
                  received_commands (trace w0) ++ [v]
             /\ filter is_RaiseSignal (trace (after [Receive application_companion_in_queue v] w0)) =
                  filter is_RaiseSignal (trace w0)
             /\ manager_out (after [Receive application_companion_in_queue v] w0) = manager_out w0
             /\ manager_answers (trace (after [Receive application_companion_in_queue v] w0)) =
                  manager_answers (trace w0)
             /\ sent application_companion_out_queue
                  (trace (after [Receive application_companion_in_queue v] w0)) =
                  sent application_companion_out_queue (trace w0)).
  { intros v w0. cbn [after self trace manager_out].
    rewrite received_commands_app, filter_app, manager_answers_app, sent_app. cbn.
    by rewrite !app_nil_r. }
  induction 1 as
    [ inbox w Hc | w Hc | v rest w Hc Hd | v rest w execute w1 Hc Hd He
    | rest w execute w1 Hc Hd He | v rest w execute w1 r w' Hc Hd He Hne Hrun IH
    | v rest w execute e w1 Hc Hd He | v rest w execute w1 Hc Hd He ].
  - split; [done|]. split; [exists 0%nat; by rewrite app_nil_r|].
    split; [by rewrite app_nil_r|]. exists []. by rewrite !app_nil_r.
  - split; [done|]. split; [exists 0%nat; by rewrite app_nil_r|].
    split; [by rewrite app_nil_r|]. exists []. by rewrite !app_nil_r.
  - destruct (F v w) as (-> & -> & -> & -> & -> & ->).
    split; [done|]. split; [by exists 1%nat|].
    split; [by rewrite app_nil_r|]. exists []. by rewrite !app_nil_r.
  - destruct (handler_summary env v execute _ _ _ Hd He)
      as (R & C & Sg & k & Hk & Ha & Hs).
    destruct (F v w) as (F1 & F2 & F3 & F4 & F5 & F6).
    rewrite F1 in R. rewrite F2 in C. rewrite F3 in Sg. rewrite F4 in Hk.
    rewrite F5 in Ha. rewrite F6 in Hs.
    cbn [after self trace manager_out].
    rewrite received_commands_app, filter_app, manager_answers_app, sent_app. cbn.
    rewrite !app_nil_r, R, C, Sg, Ha, Hs.
    split; [done|]. split; [by exists 1%nat|]. split; [done|]. by exists k.
  - destruct (handler_summary env _ execute _ _ _ Hd He)
      as (R & C & Sg & k & Hk & Ha & Hs).
    destruct (F (VCommand END) w) as (F1 & F2 & F3 & F4 & F5 & F6).
    rewrite F1 in R. rewrite F2 in C. rewrite F3 in Sg. rewrite F4 in Hk.
    rewrite F5 in Ha. rewrite F6 in Hs.
    rewrite R, C, Sg, app_nil_r.
    split; [done|]. split; [by exists 1%nat|]. split; [done|]. by exists k.
  - destruct (handler_summary env v execute _ _ _ Hd He)
      as (R & C & Sg & k & Hk & Ha & Hs).
    destruct (F v w) as (F1 & F2 & F3 & F4 & F5 & F6).
    rewrite F1 in R. rewrite F2 in C. rewrite F3 in Sg. rewrite F4 in Hk.
    rewrite F5 in Ha. rewrite F6 in Hs.
    destruct IH as (R' & (n & C') & Sg' & k' & Hk' & Ha' & Hs').
    rewrite R', R, C', C, Sg', Sg, Ha', Ha, Hs', Hs, Hk, Hk'.
    split; [done|]. split; [exists (S n); by rewrite <- app_assoc|].
    split; [done|]. exists (k ++ k'). by rewrite !app_assoc.
  - destruct (handler_summary env v execute _ _ _ Hd He)
      as (R & C & Sg & k & Hk & Ha & Hs).
    destruct (F v w) as (F1 & F2 & F3 & F4 & F5 & F6).
    rewrite F1 in R. rewrite F2 in C. rewrite F3 in Sg. rewrite F4 in Hk.
    rewrite F5 in Ha. rewrite F6 in Hs.
    rewrite R, C, Sg, app_nil_r.
    split; [done|]. split; [by exists 1%nat|]. split; [done|]. by exists k.
  - destruct (handler_summary env v execute _ _ _ Hd He)
      as (R & C & Sg & k & Hk & Ha & Hs).
    destruct (F v w) as (F1 & F2 & F3 & F4 & F5 & F6).
    rewrite F1 in R. rewrite F2 in C. rewrite F3 in Sg. rewrite F4 in Hk.
    rewrite F5 in Ha. rewrite F6 in Hs.
    rewrite R, C, Sg, app_nil_r.
    split; [done|]. split; [by exists 1%nat|]. split; [done|]. by exists k.
Qed.

(** ** The loop as a whole *)

(** X1: the dispatch loop never touches what bootstrap set up: the
    actions, the registration flag, the communicator and the registered
    service are the same after the loop as before it, however it ends;
    only the Application Manager attribute can change. *)
Theorem loop_keeps_registration (env : environment) (inbox : list value) (w : world) :
  registration_of (self (snd (__fetch_and_execute_steering_commands env inbox w))) =
  registration_of (self w).
Proof. by destruct (loop_run_summary _ _ _ _ _ (loop_run_complete env inbox w)) as (? & _). Qed.

(** X2: the loop takes the Orchestrator's values in the order they are
    delivered, each at most once: what it has fetched when it ends is a
    prefix of what was delivered. *)
Theorem loop_fetches_in_order (env : environment) (inbox : list value) (w : world) :
  exists n,
    received_commands (trace (snd (__fetch_and_execute_steering_commands env inbox w))) =
    received_commands (trace w) ++ take n inbox.
Proof. by destruct (loop_run_summary _ _ _ _ _ (loop_run_complete env inbox w)) as (_ & ? & _). Qed.

(** X3: the loop raises the termination signal at most once, only on
    its failure path and as its last action: when the loop returns OK,
    ends with an exception or blocks, it has raised no signal, and when
    it has raised one nothing was done after it. *)
Theorem signal_only_on_failure_path (env : environment) (inbox : list value) (w : world) :
  let r := __fetch_and_execute_steering_commands env inbox w in
  exists l,
    filter is_RaiseSignal (trace (snd r)) = filter is_RaiseSignal (trace w) ++ l
    /\ (l = [] \/ (l = [RaiseSignal] /\ last (trace (snd r)) = Some RaiseSignal))
    /\ (fst r <> Return ERROR -> l = []).
Proof.
  intros r. subst r.
  destruct (loop_run_summary _ _ _ _ _ (loop_run_complete env inbox w))
    as (_ & _ & Sg & _).
  destruct (__fetch_and_execute_steering_commands env inbox w) as [res w'] eqn:E.
  cbn [fst snd] in *. eexists. split; [exact Sg|].
  destruct res as [[]| |]; try (split; [by left | done]).
  split; [|done]. right. split; [done|].
  apply (loop_ERROR_after_signal env inbox w w' E).
Qed.

(** X4: however the loop ends, the answers it has taken from the Manager
    are the first answers the Manager gave, in order, and what it has
    put on the Orchestrator-facing outbound queue is these answers, in
    the same order. *)
Theorem manager_answers_are_forwarded (env : environment) (inbox : list value) (w : world) :
  let w' := snd (__fetch_and_execute_steering_commands env inbox w) in
  exists k,
    manager_out w = k ++ manager_out w'
    /\ manager_answers (trace w') = manager_answers (trace w) ++ k
    /\ sent application_companion_out_queue (trace w') =
         sent application_companion_out_queue (trace w) ++ k.
Proof.
  by destruct (loop_run_summary _ _ _ _ _ (loop_run_complete env inbox w)) as (_ & _ & _ & ?).
Qed.

(** ** A loop that returns OK *)

Lemma handler_OK_state env cmd w w1 :
  execute_command env cmd w = (Return OK, w1) ->
  states_written (trace w1) = states_written (trace w) ++ [commanded_state cmd].
Proof.
  rewrite execute_command_outcome. unfold handler_outcome.
  destruct (has_attribute _ _); cbn [negb]; [|discriminate].
  destruct (eq_Response (env_update_state _ _ _) ERROR) eqn:Hu; [discriminate|].
  destruct (communicator (self w)) as [[]|]; [|discriminate].
  destruct (manager_out w) as [|r replies]; [discriminate|].
  intros [= _ <-]. cbn [trace]. rewrite states_written_app. f_equal.
  unfold states_written. cbn [omap list_omap state_written]. rewrite Hu.
  by destruct cmd.
Qed.

Lemma loop_run_OK_state env inbox w res w' :
  loop_run env inbox w res w' ->
  res = Return OK ->
  last (states_written (trace w')) = Some TERMINATED.
Proof.
  induction 1 as
    [ inbox w Hc | w Hc | v rest w Hc Hd | v rest w execute w1 Hc Hd He
    | rest w execute w1 Hc Hd He | v rest w execute w1 r w' Hc Hd He Hne Hrun IH
    | v rest w execute e w1 Hc Hd He | v rest w execute w1 Hc Hd He ];
    try discriminate; intros Eres.
  - rewrite dispatch_command in Hd. injection Hd as <-.
    rewrite (handler_OK_state env END _ _ He). apply last_snoc.
  - by apply IH.
Qed.

(** X5: a loop that returns OK leaves TERMINATED as the last state
    written to the registry. *)
Theorem loop_OK_leaves_TERMINATED (env : environment) (inbox : list value) (w w' : world) :
  __fetch_and_execute_steering_commands env inbox w = (Return OK, w') ->
  last (states_written (trace w')) = Some TERMINATED.
Proof.
  intros H.
  pose proof (loop_run_complete env inbox w) as R. rewrite H in R.
  by apply (loop_run_OK_state _ _ _ _ _ R).
Qed.

Lemma loop_OK_leaves_TERMINATED_witness :
  last (states_written
          (trace (snd (__fetch_and_execute_steering_commands env_fine [VCommand END]
                         (ready env_fine [VResponse OK]))))) = Some TERMINATED.
Proof.
  apply (loop_OK_leaves_TERMINATED env_fine [VCommand END] (ready env_fine [VResponse OK])).
  reflexivity.
Defined.

(** ** Bootstrap, edge cases *)

(** X6: a failure of the affinity manager is not fatal: whatever it
    answers, [__set_up_runtime] ends the same way, leaves the same
    Companion object and goes through the same steps after the affinity
    call. *)
Theorem affinity_failure_is_not_fatal (env : environment) (rc : value) (w : world) :
  fst (__set_up_runtime (with_affinity rc env) w) = fst (__set_up_runtime env w)
  /\ self (snd (__set_up_runtime (with_affinity rc env) w)) =
       self (snd (__set_up_runtime env w))
  /\ exists steps,
       trace (snd (__set_up_runtime (with_affinity rc env) w)) =
         trace w ++ SetAffinity rc :: steps
       /\ trace (snd (__set_up_runtime env w)) =
            trace w ++ SetAffinity (env_set_affinity env) :: steps.
Proof.
  unfold __set_up_runtime. unfold_monad. cbn.
  destruct (actions (self w) !! "action") as [name|]; cbn.
  2:{ repeat split. by exists []. }
  destruct (eq_Response (env_register env) ERROR); cbn.
  { repeat split. eexists. by rewrite <- !app_assoc. }
  destruct (has_attribute (env_find_by_id env) attr_id); cbn.
  2:{ repeat split. eexists. by rewrite <- !app_assoc. }
  destruct (has_attribute (env_find_by_id env) attr_name); cbn.
  all: repeat split; eexists; by rewrite <- !app_assoc.
Qed.

(** X7: when the actions carry no ["action"] entry, bootstrap raises
    [KeyError] right after the affinity call: the registry is not
    contacted, the flag stays unset, and [run] ends with the same
    exception without entering the loop. *)
Theorem missing_action_raises_KeyError
    (env : environment) (inbox : list value) (w : world) :
  actions (self w) !! "action" = None ->
  run env inbox w = (Raise KeyError, after [SetAffinity (env_set_affinity env)] w).
Proof.
  intros Ha. unfold run, __set_up_runtime. unfold_monad. cbn. by rewrite Ha.
Qed.

Lemma missing_action_raises_KeyError_witness :
  run env_fine [VCommand INIT] (new_world ∅ []) =
  (Raise KeyError, after [SetAffinity (VResponse OK)] (new_world ∅ [])).
Proof.
  apply (missing_action_raises_KeyError env_fine [VCommand INIT] (new_world ∅ [])).
  reflexivity.
Defined.

Lemma lifetime_outcome env acts replies inbox :
  lifetime env inbox (new_world acts replies) =
    if eq_Response (env_connect env) ERROR
    then (Raise ConnectionFailure, after (init_added env) (new_world acts replies))
    else match __set_up_runtime env (after (init_added env) (new_world acts replies)) with
         | (Return OK, w1) => __fetch_and_execute_steering_commands env inbox w1
         | other => other
         end.
Proof.
  destruct (init_outcome env (new_world acts replies)) as [Ef Es].
  unfold lifetime, bind.
  destruct (__init__ env (new_world acts replies)) as [r0 w0].
  cbn [fst snd] in Ef, Es. subst r0 w0.
  destruct (eq_Response (env_connect env) ERROR); [done|]. apply run_outcome.
Qed.

Lemma precedes_from_seen p q l : precedes_from true p q l = true.
Proof. induction l as [|e l IH]; [done|]. cbn. by rewrite orb_true_r, IH. Qed.

(** X9: over a whole lifetime, no state update is attempted before the
    registered service was looked up, nor before the registration flag
    was set. *)
Theorem state_updates_follow_registration
    (env : environment) (acts : gmap string value) (replies inbox : list value) :
  let t := trace (snd (lifetime env inbox (new_world acts replies))) in
  precedes is_FindById is_registry_update t = true
  /\ precedes is_FlagSet is_registry_update t = true.
Proof.
  intros t. subst t.
  assert (B : forall p, precedes p is_registry_update (before_loop env acts) = true).
  { intros p. apply precedes_from_absent.
    eapply forallb_weaken; [|apply before_loop_manager].
    intros e He. by destruct e. }
  pose proof (lifetime_before_loop env acts replies inbox) as L.
  destruct (enters_loop env acts) eqn:En; [|by rewrite L].
  destruct L as (w1 & -> & Ht).
  destruct (loop_follows_script env inbox w1) as (l & -> & _).
  assert (Seen : existsb is_FindById (before_loop env acts) = true
                 /\ existsb is_FlagSet (before_loop env acts) = true).
  { revert En. unfold enters_loop, before_loop, init_added, bootstrap_added, bootstrap_result.
    destruct (eq_Response (env_connect env) ERROR); [done|].
    destruct (acts !! "action"); [|done].
    destruct (eq_Response (env_register env) ERROR); [done|].
    by destruct (lookup_usable env). }
  destruct Seen as [S1 S2]. unfold precedes.
  by rewrite Ht, !precedes_from_app, !B, S1, S2, !precedes_from_seen.
Qed.

(** X10: whenever construction or bootstrap does not succeed (the
    connection fails, bootstrap returns ERROR or raises), the lifetime
    does not return OK and nothing of the loop happens: nothing is
    fetched, no state is updated, nothing goes to or comes from the
    Manager or to the Orchestrator, no signal is raised. *)
Theorem no_loop_without_bootstrap
    (env : environment) (acts : gmap string value) (replies inbox : list value) :
  let w0 := snd (__init__ env (new_world acts replies)) in
  fst (__init__ env (new_world acts replies)) <> Return tt
  \/ fst (__set_up_runtime env w0) <> Return OK ->
  fst (lifetime env inbox (new_world acts replies)) <> Return OK
  /\ forallb (fun e => negb (loop_effect e))
       (trace (snd (lifetime env inbox (new_world acts replies)))) = true.
Proof.
  intros w0 H. subst w0.
  destruct (init_outcome env (new_world acts replies)) as [Ef Es].
  rewrite Ef, Es in H. rewrite lifetime_outcome.
  pose proof (before_loop_manager env acts) as B. unfold before_loop in B.
  destruct (eq_Response (env_connect env) ERROR).
  { split; [done|]. by rewrite app_nil_r in B. }
  destruct H as [H|H]; [done|].
  destruct (set_up_runtime_outcome env (after (init_added env) (new_world acts replies)))
    as (_ & Rt & _).
  destruct (__set_up_runtime env _) as [[[]| |] w1]; cbn [fst snd] in *;
    [done | | | ]; (split; [done|]); by rewrite Rt.
Qed.

Lemma no_loop_without_bootstrap_witness :
  fst (lifetime env_register_fails [VCommand INIT] (new_world Scenario.acts [payload])) <>
  Return OK.
Proof.
  apply (no_loop_without_bootstrap env_register_fails Scenario.acts [payload] [VCommand INIT]).
  right. discriminate.
Defined.

Lemma set_up_runtime_is_registered env w :
  is_registered (self (snd (__set_up_runtime env w))) =
  is_registered (self w) || existsb is_FlagSet (bootstrap_added env (actions (self w))).
Proof.
  unfold __set_up_runtime, bootstrap_added, lookup_usable. unfold_monad. cbn.
  destruct (actions (self w) !! "action") as [name|]; cbn; [|by rewrite orb_false_r].
  destruct (eq_Response (env_register env) ERROR); cbn; [by rewrite orb_false_r|].
  rewrite orb_true_r.
  destruct (has_attribute (env_find_by_id env) attr_id); cbn; [|done].
  by destruct (has_attribute (env_find_by_id env) attr_name).
Qed.

Lemma lifetime_is_registered
    (env : environment) (acts : gmap string value) (replies inbox : list value) :
  is_registered (self (snd (lifetime env inbox (new_world acts replies)))) =
  existsb is_FlagSet (trace (snd (lifetime env inbox (new_world acts replies)))).
Proof.
  rewrite lifetime_outcome.
  assert (I : existsb is_FlagSet (init_added env) = false).
  { unfold init_added. by destruct (eq_Response (env_connect env) ERROR). }
  destruct (eq_Response (env_connect env) ERROR);
    [cbn [snd after self trace new_world is_registered app]; by rewrite I|].
  pose proof (set_up_runtime_is_registered env
                (after (init_added env) (new_world acts replies))) as R.
  destruct (set_up_runtime_outcome env (after (init_added env) (new_world acts replies)))
    as (_ & Rt & _).
  cbn [after self trace actions is_registered new_world app] in R, Rt.
  destruct (__set_up_runtime env _) as [res w1]. cbn [fst snd] in *.
  assert (E : is_registered (self w1) = existsb is_FlagSet (trace w1))
    by (by rewrite R, Rt, existsb_app, I).
  destruct res as [[]| |]; try exact E.
  destruct (loop_run_summary _ _ _ _ _ (loop_run_complete env inbox w1)) as (K & _).
  destruct (loop_follows_script env inbox w1) as (l & El & Sl).
  rewrite El, existsb_app, (existsb_foreign is_FlagSet l), orb_false_r, <- E;
    [ | by intros [] | by apply loop_script_effects].
  unfold registration_of in K. by injection K.
Qed.

(** X11: at the end of a lifetime, however it ends, the registration
    flag the Companion exposes ([is_registered_in_registry]) is set
    exactly when [__set_up_runtime] went through the step that sets
    it. *)
Theorem is_registered_reflects_flag
    (env : environment) (acts : gmap string value) (replies inbox : list value) :
  let w' := snd (lifetime env inbox (new_world acts replies)) in
  is_registered (self w') = existsb is_FlagSet (trace w').
Proof. intros w'. subst w'. apply lifetime_is_registered. Qed.

(** ** Handlers, edge cases *)

(** X12: when the state update is accepted and the Manager never
    answers, the handler blocks for ever after it has sent the command
    to the Manager: the loop does not go on, nothing is put on the
    Orchestrator-facing queue and no signal is raised. *)
Theorem silent_manager_blocks
    (env : environment) (cmd : SteeringCommands) (rest : list value) (w : world) :
  let history := trace w ++ [Receive application_companion_in_queue (VCommand cmd)] in
  communicator (self w) = Some tt ->
  has_attribute (ac_registered_component_service (self w)) attr_current_state = true ->
  eq_Response (env_update_state env history (commanded_state cmd)) ERROR = false ->
  manager_out w = [] ->
  __fetch_and_execute_steering_commands env (VCommand cmd :: rest) w =
    (Blocked,
     {| self := with_manager cmd (self w);
        trace := history ++
                 UpdateState (ac_registered_component_service (self w))
                   (commanded_state cmd)
                   (env_update_state env history (commanded_state cmd))
                 :: manager_setup cmd ++
                 [Send (VCommand cmd) application_manager_in_queue];
        manager_out := [] |}).
Proof.
  intros history Hc Hs Hu Hm.
  rewrite (loop_step env _ rest _ w Hc (dispatch_command env cmd)).
  change (match cmd with
          | INIT => __execute_init_command env
          | START => __execute_start_command env
          | END => __execute_end_command env
          end) with (execute_command env cmd).
  rewrite execute_command_outcome. unfold handler_outcome.
  cbn [after self trace manager_out]. fold history.
  by rewrite Hs, Hu, Hc, Hm.
Qed.

Lemma silent_manager_blocks_witness :
  fst (__fetch_and_execute_steering_commands env_fine [VCommand START; VCommand END]
         (ready env_fine [])) = Blocked.
Proof.
  by rewrite (silent_manager_blocks env_fine START [VCommand END] (ready env_fine [])
                eq_refl eq_refl eq_refl eq_refl).
Defined.

(** X13: no handler looks at whether an Application Manager exists:
    with any value of the Application Manager attribute a handler ends
    the same way, does the same and takes the same answers.  START and
    END go to the Manager queue even when INIT never ran, and INIT
    constructs and starts a Manager again when one exists. *)
Theorem handlers_ignore_application_manager
    (env : environment) (cmd : SteeringCommands)
    (m : option ApplicationManager) (w : world) :
  fst (execute_command env cmd (with_application_manager m w)) =
    fst (execute_command env cmd w)
  /\ trace (snd (execute_command env cmd (with_application_manager m w))) =
       trace (snd (execute_command env cmd w))
  /\ manager_out (snd (execute_command env cmd (with_application_manager m w))) =
       manager_out (snd (execute_command env cmd w)).
Proof.
  rewrite !execute_command_outcome. unfold handler_outcome.
  cbn [with_application_manager self trace manager_out ac_registered_component_service
       communicator].
  destruct (has_attribute _ _); cbn [negb]; [|done].
  destruct (eq_Response _ ERROR); [done|].
  destruct (communicator (self w)); [|done].
  by destruct (manager_out w).
Qed.

Lemma loop_run_OK_needs_END env inbox w res w' :
  loop_run env inbox w res w' ->
  res = Return OK ->
  VCommand END ∈ inbox.
Proof.
  induction 1; try discriminate; intros Eres.
  - apply list_elem_of_here.
  - apply list_elem_of_further. by apply IHloop_run.
Qed.

(** X14: without END among the values the Orchestrator delivers, the
    loop never returns OK: it ends with ERROR, with an exception, or
    blocked on a queue. *)
Theorem no_success_without_END (env : environment) (inbox : list value) (w : world) :
  VCommand END ∉ inbox ->
  fst (__fetch_and_execute_steering_commands env inbox w) <> Return OK.
Proof.
  intros Hno Hok. apply Hno.
  by apply (loop_run_OK_needs_END _ _ _ _ _ (loop_run_complete env inbox w)).
Qed.

Lemma no_success_without_END_witness :
  fst (__fetch_and_execute_steering_commands env_fine [VCommand INIT; VCommand START]
         (ready env_fine [payload; VResponse OK])) <> Return OK.
Proof.
  apply (no_success_without_END env_fine [VCommand INIT; VCommand START]
           (ready env_fine [payload; VResponse OK])).
  intros H. apply list_elem_of_In in H. cbn in H.
  destruct H as [H|[H|[]]]; discriminate.
Defined.

(** ** Effects that follow one another directly *)

Lemma directly_after_from_app b p q l1 l2 :
  directly_after_from b p q (l1 ++ l2) =
  directly_after_from b p q l1 && directly_after_from (ends_with_from b p l1) p q l2.
Proof.
  revert b. induction l1 as [|e l1 IH]; intros b; cbn; [done|].
  by rewrite IH, andb_assoc.
Qed.

Lemma directly_after_from_prefix b p q l k :
  l `prefix_of` k -> directly_after_from b p q k = true -> directly_after_from b p q l = true.
Proof. intros [k' ->]. rewrite directly_after_from_app. by intros [? _]%andb_prop. Qed.

Lemma directly_after_from_absent b p q l :
  forallb (fun e => negb (q e)) l = true -> directly_after_from b p q l = true.
Proof.
  revert b. induction l as [|e l IH]; intros b H; [done|]. cbn in H |- *.
  apply andb_prop in H as [-> Hl]. by rewrite IH.
Qed.

Section Direct.

Variables p q : effect -> bool.
Hypothesis q_signal : q RaiseSignal = false.
Hypothesis iteration_direct :
  forall b v svc rc r,
    directly_after_from b p q
      (Receive application_companion_in_queue v :: handler_script v svc rc r) = true.

Lemma loop_script_direct l :
  loop_script l -> forall b, directly_after_from b p q l = true.
Proof.
  induction 1 as [ | v svc rc r l P | v svc rc r l rest P _ IH ]; intros b; [done | |].
  - change (directly_after_from b p q
              ((Receive application_companion_in_queue v :: l) ++ [RaiseSignal]) = true).
    rewrite directly_after_from_app. apply andb_true_intro. split.
    + apply (directly_after_from_prefix _ _ _ _
        (Receive application_companion_in_queue v :: handler_script v svc rc r));
        [by apply prefix_cons | apply iteration_direct].
    + cbn. by rewrite q_signal.
  - change (directly_after_from b p q
              ((Receive application_companion_in_queue v :: l) ++ rest) = true).
    rewrite directly_after_from_app, IH, andb_true_r.
    apply (directly_after_from_prefix _ _ _ _
      (Receive application_companion_in_queue v :: handler_script v svc rc r));
      [by apply prefix_cons | apply iteration_direct].
Qed.

Lemma loop_keeps_direct env inbox w :
  directly_after p q (trace w) = true ->
  directly_after p q
    (trace (snd (__fetch_and_execute_steering_commands env inbox w))) = true.
Proof.
  intros H. destruct (loop_follows_script env inbox w) as (l & -> & S).
  unfold directly_after in *.
  by rewrite directly_after_from_app, H, loop_script_direct.
Qed.

End Direct.

(** ** The Application Manager attribute *)

Lemma handler_has_manager env v execute w res w1 :
  command_execution_choices env v = Some execute ->
  execute w = (res, w1) ->
  has_manager (self w) = existsb is_NewManager (trace w) ->
  has_manager (self w1) = existsb is_NewManager (trace w1).
Proof.
  intros Hd He J.
  destruct (dispatch_outcome env v execute Hd) as [[-> ->] | (cmd & -> & ->)].
  { by injection He as <- <-. }
  rewrite execute_command_outcome in He. unfold handler_outcome in He.
  destruct (has_attribute _ _); cbn [negb] in He; [|by injection He as <- <-].
  destruct (eq_Response (env_update_state _ _ _) ERROR).
  { injection He as <- <-. cbn [after self trace].
    by rewrite existsb_app, J, orb_false_r. }
  destruct (communicator (self w)) as [[]|]; [destruct (manager_out w) as [|r replies]|];
    injection He as <- <-; cbn [self trace]; rewrite existsb_app, <- J.
  all: destruct cmd; cbn; by rewrite ?orb_true_r, ?orb_false_r.
Qed.

Lemma loop_run_has_manager env inbox w res w' :
  loop_run env inbox w res w' ->
  has_manager (self w) = existsb is_NewManager (trace w) ->
  has_manager (self w') = existsb is_NewManager (trace w').
Proof.
  assert (F : forall v w0,
             has_manager (self w0) = existsb is_NewManager (trace w0) ->
             has_manager (self (after [Receive application_companion_in_queue v] w0)) =
             existsb is_NewManager
               (trace (after [Receive application_companion_in_queue v] w0))).
  { intros v w0 J. cbn [after self trace]. by rewrite existsb_app, J, orb_false_r. }
  induction 1 as
    [ inbox w Hc | w Hc | v rest w Hc Hd | v rest w execute w1 Hc Hd He
    | rest w execute w1 Hc Hd He | v rest w execute w1 r w' Hc Hd He Hne Hrun IH
    | v rest w execute e w1 Hc Hd He | v rest w execute w1 Hc Hd He ];
    intros J; try done.
  - by apply F.
  - cbn [after self trace]. rewrite existsb_app. cbn. rewrite orb_false_r.
    by apply (handler_has_manager env v execute _ _ _ Hd He), F.
  - by apply (handler_has_manager env _ execute _ _ _ Hd He), F.
  - by apply IH, (handler_has_manager env v execute _ _ _ Hd He), F.
  - by apply (handler_has_manager env v execute _ _ _ Hd He), F.
  - by apply (handler_has_manager env v execute _ _ _ Hd He), F.
Qed.

Lemma before_loop_no_manager env acts :
  existsb is_NewManager (before_loop env acts) = false.
Proof.
  pose proof (before_loop_manager env acts) as B.
  induction (before_loop env acts) as [|e l IH]; [done|]. cbn in B |- *.
  apply andb_prop in B as [He Hl]. rewrite (IH Hl), orb_false_r.
  by destruct e.
Qed.

Lemma lifetime_has_manager
    (env : environment) (acts : gmap string value) (replies inbox : list value) :
  has_manager (self (snd (lifetime env inbox (new_world acts replies)))) =
  existsb is_NewManager (trace (snd (lifetime env inbox (new_world acts replies)))).
Proof.
  rewrite lifetime_outcome.
  pose proof (before_loop_no_manager env acts) as B. unfold before_loop in B.
  destruct (eq_Response (env_connect env) ERROR).
  { cbn [snd after self trace new_world app]. by rewrite app_nil_r in B. }
  destruct (set_up_runtime_outcome env (after (init_added env) (new_world acts replies)))
    as (_ & Rt & _ & _ & Rm).
  cbn [after self trace actions application_manager new_world app] in Rt, Rm.
  destruct (__set_up_runtime env _) as [res w1]. cbn [fst snd] in *.
  assert (J : has_manager (self w1) = existsb is_NewManager (trace w1)).
  { unfold has_manager. by rewrite Rm, Rt, B. }
  destruct res as [[]| |]; try exact J.
  by apply (loop_run_has_manager _ _ _ _ _ (loop_run_complete env inbox w1)).
Qed.

(** ** The Manager is constructed by the INIT handler *)

(** C2, amended: the two Manager queues are created by the constructor,
    which leaves no Application Manager behind.  Over a whole lifetime
    the Application Manager is constructed only in the INIT handler:
    every construction directly follows a state update to SYNCHRONIZING,
    which directly follows the fetch of INIT; every start directly
    follows a construction; INIT is sent to the Manager only directly
    after a start; and the Companion holds an Application Manager
    exactly when one was constructed. *)
Theorem manager_created_at_INIT
    (env : environment) (acts : gmap string value) (replies inbox : list value) :
  let w0 := snd (__init__ env (new_world acts replies)) in
  let w' := snd (lifetime env inbox (new_world acts replies)) in
  let t := trace w' in
  (existsb (is_NewQueue application_manager_in_queue) (trace w0) = true
   /\ existsb (is_NewQueue application_manager_out_queue) (trace w0) = true
   /\ application_manager (self w0) = None
   /\ existsb is_NewManager (trace w0) = false)
  /\ precedes (is_fetch_of INIT) is_NewManager t = true
  /\ precedes is_NewManager is_StartManager t = true
  /\ precedes is_StartManager (is_command_to_manager INIT) t = true
  /\ directly_after (is_fetch_of INIT) is_update_to_SYNCHRONIZING t = true
  /\ directly_after is_update_to_SYNCHRONIZING is_NewManager t = true
  /\ directly_after is_NewManager is_StartManager t = true
  /\ directly_after is_StartManager (is_command_to_manager INIT) t = true
  /\ has_manager (self w') = existsb is_NewManager t.
Proof.
  intros w0 w' t. subst w0 w' t.
  destruct (lifetime_manager_order env acts replies inbox) as (H0 & H1 & H2 & H3).
  do 4 (split; [assumption|]).
  assert (B : forall p q : effect -> bool,
             (forall e, q e = true -> loop_effect e = true) ->
             directly_after p q (before_loop env acts) = true).
  { intros p q Hq. apply directly_after_from_absent.
    eapply forallb_weaken; [|apply before_loop_manager].
    intros e He. cbn in He |- *. destruct (q e) eqn:Qe; [|done].
    by rewrite (Hq e Qe) in He. }
  assert (D : forall p q : effect -> bool,
             (forall e, q e = true -> loop_effect e = true) ->
             q RaiseSignal = false ->
             (forall b v svc rc r,
                directly_after_from b p q
                  (Receive application_companion_in_queue v :: handler_script v svc rc r)
                  = true) ->
             directly_after p q
               (trace (snd (lifetime env inbox (new_world acts replies)))) = true).
  { intros p q Hq Hs Hi.
    pose proof (lifetime_before_loop env acts replies inbox) as L.
    destruct (enters_loop env acts).
    - destruct L as (w1 & -> & Ht). apply loop_keeps_direct; [done | done |].
      rewrite Ht. by apply B.
    - rewrite L. by apply B. }
  split; [|split; [|split; [|split]]].
  5: apply lifetime_has_manager.
  all: apply D; [effect_cases | done | ].
  all: intros b v svc rc r; by destruct v as [ | | [] | | | | | | ].
Qed.

(** ** The registration flag, state and trace *)

Lemma before_loop_flag_direct env acts :
  directly_after is_FlagSet is_FindById (before_loop env acts) = true.
Proof.
  unfold before_loop, init_added, bootstrap_added, directly_after.
  destruct (eq_Response (env_connect env) ERROR); [done|].
  destruct (acts !! "action"); [|done].
  destruct (eq_Response (env_register env) ERROR); [done|].
  by destruct (lookup_usable env).
Qed.

(** C7: over a whole Companion lifetime (construction, bootstrap, loop),
    whatever the collaborators answer and whatever is delivered: the
    registration flag is unset after construction; at the end it is set
    exactly when a registration was answered with something other than
    ERROR; the step that sets it is taken at most once, and exactly when
    such a registration happened; and the lookup by id comes after the
    flag was set, directly after it. *)
Theorem registration_flag
    (env : environment) (acts : gmap string value) (replies inbox : list value) :
  let w0 := snd (__init__ env (new_world acts replies)) in
  let w' := snd (lifetime env inbox (new_world acts replies)) in
  let t := trace w' in
  is_registered (self w0) = false
  /\ is_registered (self w') = existsb is_successful_Register t
  /\ (length (filter is_FlagSet t) <= 1)%nat
  /\ existsb is_FlagSet t = existsb is_successful_Register t
  /\ precedes is_FlagSet is_FindById t = true
  /\ directly_after is_FlagSet is_FindById t = true.
Proof.
  intros w0 w' t. subst w0 w' t.
  destruct (lifetime_flag_trace env acts replies inbox) as (Hn & Hiff & Hord).
  split.
  { by destruct (init_outcome env (new_world acts replies)) as [_ ->]. }
  split; [by rewrite lifetime_is_registered|].
  do 3 (split; [assumption|]).
  pose proof (before_loop_flag_direct env acts) as B.
  pose proof (lifetime_before_loop env acts replies inbox) as L.
  destruct (enters_loop env acts); [|by rewrite L].
  destruct L as (w1 & -> & Ht). apply loop_keeps_direct; [done | | by rewrite Ht].
  intros b v svc rc r. by destruct v as [ | | [] | | | | | | ].
Qed.
